(** * apple-cdn-network-bench: the transfer engine, the endpoint resolver
      and the size parser, embedded and verified.

    Sources embedded here:
    - package [transfer]: [Run], [doDownload], [doUpload], [zeroReader],
      [countingReader];
    - package [endpoint] ([internal/endpoint/endpoint.go]): [resolveDoH],
      [resolveSystem], [fetchIPDesc], [promptChoice];
    - package [config] ([internal/config/config.go]): [ParseSize], [Load],
      [envOr], [envInt].

    The first part of the file holds the definitions: the machine integers,
    the models of the Go library functions the packages call, then one
    module per Go package. The second part holds the lemmas and theorems. *)

From Stdlib Require Import ZArith QArith Qminmax Lia Lqa List Ascii String.
From stdpp Require Import base gmap strings list.

Open Scope Z_scope.

(* ===================================================================== *)
(** * Part I: definitions                                                *)
(* ===================================================================== *)

(** ** Machine integers *)

(** Go's [int64]: two's complement on 64 bits, arithmetic wraps silently. *)
Module Int64.

Definition min_int : Z := - 2 ^ 63.
Definition max_int : Z := 2 ^ 63 - 1.

Definition in_range (z : Z) : Prop := min_int <= z <= max_int.

Definition wrap (z : Z) : Z := (z + 2 ^ 63) mod 2 ^ 64 - 2 ^ 63.

Definition add (a b : Z) : Z := wrap (a + b).
Definition sub (a b : Z) : Z := wrap (a - b).
Definition neg (a : Z) : Z := wrap (- a).

End Int64.

(** Go's [int32], for [atomic.Int32]. *)
Module Int32.

Definition wrap (z : Z) : Z := (z + 2 ^ 31) mod 2 ^ 32 - 2 ^ 31.
Definition add (a b : Z) : Z := wrap (a + b).

End Int32.

(** ** Models of the Go library functions the packages call

    These are not code of the repository: each definition renders the
    documented behaviour of the library function the source calls, on the
    inputs that can reach it there. Strings are byte strings, as in Go. *)

Module GoStd.

(** *** Bytes and classes *)

Definition byte_in (lo hi : N) (c : ascii) : bool :=
  ((lo <=? N_of_ascii c) && (N_of_ascii c <=? hi))%N.

Definition is_digit (c : ascii) : bool := byte_in 48 57 c.
Definition is_upper (c : ascii) : bool := byte_in 65 90 c.
Definition is_lower (c : ascii) : bool := byte_in 97 122 c.
Definition is_letter (c : ascii) : bool := is_upper c || is_lower c.

(** [\w] of RE2: [0-9A-Za-z_]. *)
Definition is_word (c : ascii) : bool :=
  is_digit c || is_letter c || Ascii.eqb c "_".

(** [\s] of RE2: tab, newline, form feed, carriage return, space. *)
Definition is_re_space (c : ascii) : bool :=
  Ascii.eqb c "009" || Ascii.eqb c "010" || Ascii.eqb c "012" ||
  Ascii.eqb c "013" || Ascii.eqb c " ".

Definition is_dot (c : ascii) : bool := Ascii.eqb c ".".

Definition bytes (l : list N) : list ascii := map ascii_of_N l.

(** UTF-8 of U+017F (long s) and U+212A (Kelvin sign): the two letters
    outside ASCII that fold to an ASCII letter. *)
Definition long_s : list ascii := bytes [197; 191]%N.
Definition kelvin : list ascii := bytes [226; 132; 170]%N.

(** *** Package regexp: a backtracking matcher

    Go's [regexp] returns the match a backtracking engine finds first
    (leftmost, then by preference of the alternatives and of the greedy
    repetitions), which is what [run] computes. Unbounded repetitions are
    bounded by the bytes left, which is exact when an iteration cannot
    match the empty string (true of the patterns of this repository). *)

Inductive regex :=
| Cls (p : ascii -> bool)
| Lit (s : list ascii)
| Bol
| Eol
| WordB
| Cat (r1 r2 : regex)
| Alt (r1 r2 : regex)
| Rep (r : regex) (lo : nat) (hi : option nat)
| Grp (i : nat) (r : regex).

(** A position in the subject: the bytes before it (nearest first), the
    bytes after it, and the groups captured so far. *)
Record mstate := mkState {
  before : list ascii;
  after  : list ascii;
  caps   : list (nat * list ascii)
}.

Definition matcher := mstate -> (mstate -> option mstate) -> option mstate.

Fixpoint lit_strip (s l : list ascii) : option (list ascii) :=
  match s, l with
  | [], _ => Some l
  | c :: s', d :: l' => if Ascii.eqb c d then lit_strip s' l' else None
  | _ :: _, [] => None
  end.

Definition word_at (l : list ascii) : bool :=
  match l with
  | c :: _ => is_word c
  | [] => false
  end.

(** Greedy [m{lo,}] with at most [n] iterations. *)
Fixpoint rep (m : matcher) (lo n : nat) : matcher :=
  fun st k =>
    match n with
    | O => match lo with O => k st | S _ => None end
    | S n' =>
        match m st (fun st' => rep m (pred lo) n' st' k) with
        | Some r => Some r
        | None => match lo with O => k st | S _ => None end
        end
    end.

Fixpoint run (r : regex) : matcher :=
  match r with
  | Cls p => fun st k =>
      match after st with
      | c :: rest =>
          if p c then k (mkState (c :: before st) rest (caps st)) else None
      | [] => None
      end
  | Lit s => fun st k =>
      match lit_strip s (after st) with
      | Some rest => k (mkState (rev s ++ before st) rest (caps st))
      | None => None
      end
  | Bol => fun st k => match before st with [] => k st | _ :: _ => None end
  | Eol => fun st k => match after st with [] => k st | _ :: _ => None end
  | WordB => fun st k =>
      if xorb (word_at (before st)) (word_at (after st)) then k st else None
  | Cat r1 r2 => fun st k => run r1 st (fun st' => run r2 st' k)
  | Alt r1 r2 => fun st k =>
      match run r1 st k with
      | Some x => Some x
      | None => run r2 st k
      end
  | Rep r lo hi => fun st k =>
      rep (run r) lo
          (match hi with Some h => h | None => length (after st) end) st k
  | Grp i r => fun st k =>
      run r st (fun st' =>
        let n := (length (before st') - length (before st))%nat in
        k (mkState (before st') (after st')
                   ((i, rev (take n (before st'))) :: caps st')))
  end.

(** The leftmost match at or after a position: where it starts and the
    state at its end. *)
Fixpoint search (r : regex) (bef aft : list ascii)
  : option (list ascii * mstate) :=
  match run r (mkState bef aft []) Some with
  | Some st => Some (bef, st)
  | None =>
      match aft with
      | [] => None
      | c :: rest => search r (c :: bef) rest
      end
  end.

(** The text between the start of a match and its end. *)
Definition matched (start : list ascii) (st : mstate) : list ascii :=
  rev (take (length (before st) - length start) (before st)).

Fixpoint cap (i : nat) (cs : list (nat * list ascii)) : list ascii :=
  match cs with
  | [] => []
  | (j, s) :: cs' => if Nat.eqb i j then s else cap i cs'
  end.

(** [re.FindStringSubmatch(s)] for a pattern with two groups:
    [m[0]], [m[1]], [m[2]]. *)
Definition FindStringSubmatch (r : regex) (s : string)
  : option (string * string * string) :=
  match search r [] (list_ascii_of_string s) with
  | None => None
  | Some (start, st) =>
      Some (string_of_list_ascii (matched start st),
            string_of_list_ascii (cap 1 (caps st)),
            string_of_list_ascii (cap 2 (caps st)))
  end.

(** The loop of [re.FindAllString(s, -1)]: successive matches, each
    searched from the end of the one before; an empty match is dropped
    when it touches the previous match, and moves the search on by one
    byte. *)
Fixpoint find_all (r : regex) (fuel : nat) (bef aft : list ascii)
    (prevEnd : option nat) : list string :=
  match fuel with
  | O => []
  | S fuel' =>
      match search r bef aft with
      | None => []
      | Some (start, st) =>
          let m := string_of_list_ascii (matched start st) in
          let e := length (before st) in
          if (e =? length bef)%nat then
            let rest :=
              match aft with
              | [] => []
              | c :: aft' => find_all r fuel' (c :: bef) aft' (Some e)
              end in
            if decide (prevEnd = Some (length start)) then rest else m :: rest
          else m :: find_all r fuel' (before st) (after st) (Some e)
      end
  end.

Definition FindAllString (r : regex) (s : string) : list string :=
  find_all r (S (String.length s)) [] (list_ascii_of_string s) None.

(** *** Package strings *)

(** The white space of [unicode.IsSpace], in UTF-8: U+0009..U+000D,
    U+0020, U+0085, U+00A0, U+1680, U+2000..U+200A, U+2028, U+2029,
    U+202F, U+205F, U+3000. *)
Definition unicode_spaces : list (list ascii) :=
  map bytes
    ([ [9]; [10]; [11]; [12]; [13]; [32]; [194; 133]; [194; 160];
       [225; 154; 128];
       [226; 128; 128]; [226; 128; 129]; [226; 128; 130]; [226; 128; 131];
       [226; 128; 132]; [226; 128; 133]; [226; 128; 134]; [226; 128; 135];
       [226; 128; 136]; [226; 128; 137]; [226; 128; 138];
       [226; 128; 168]; [226; 128; 169]; [226; 128; 175]; [226; 129; 159];
       [227; 128; 128] ])%N.

(** Strip one leading white-space rune, if there is one. *)
Fixpoint strip_space (sps : list (list ascii)) (l : list ascii)
  : option (list ascii) :=
  match sps with
  | [] => None
  | sp :: sps' =>
      match lit_strip sp l with
      | Some rest => Some rest
      | None => strip_space sps' l
      end
  end.

Fixpoint trim_left (fuel : nat) (sps : list (list ascii)) (l : list ascii)
  : list ascii :=
  match fuel with
  | O => l
  | S fuel' =>
      match strip_space sps l with
      | Some rest => trim_left fuel' sps rest
      | None => l
      end
  end.

(** [strings.TrimSpace]: leading and trailing white space removed (the
    trailing one by trimming the reversed string of the reversed runes). *)
Definition TrimSpace (s : string) : string :=
  let l := list_ascii_of_string s in
  let l1 := trim_left (length l) unicode_spaces l in
  let l2 := trim_left (length l1) (map (@rev ascii) unicode_spaces) (rev l1) in
  string_of_list_ascii (rev l2).

Definition lower_byte (c : ascii) : ascii :=
  if is_upper c then ascii_of_N (N_of_ascii c + 32) else c.

Fixpoint to_lower (fuel : nat) (l : list ascii) : list ascii :=
  match fuel with
  | O => l
  | S fuel' =>
      match lit_strip kelvin l with
      | Some rest => "k"%char :: to_lower fuel' rest
      | None =>
          match l with
          | [] => []
          | c :: rest => lower_byte c :: to_lower fuel' rest
          end
      end
  end.

(** [strings.ToLower] on the strings that reach it in [ParseSize]: ASCII
    letters, U+017F (its own lower case) and U+212A (whose lower case is
    [k]). *)
Definition ToLower (s : string) : string :=
  let l := list_ascii_of_string s in
  string_of_list_ascii (to_lower (length l) l).

(** *** Package strconv *)

Definition digit_val (c : ascii) : Z := Z.of_N (N_of_ascii c) - 48.

(** The value of a string of decimal digits; [None] on any other byte. *)
Fixpoint digits_val (acc : Z) (l : list ascii) : option Z :=
  match l with
  | [] => Some acc
  | c :: l' =>
      if is_digit c then digits_val (acc * 10 + digit_val c) l' else None
  end.

(** [strconv.Atoi]: an optional sign, at least one decimal digit, nothing
    else, and a value that fits [int] (64 bits); otherwise an error. *)
Definition Atoi (s : string) : option Z :=
  let l := list_ascii_of_string s in
  let '(neg, ds) :=
    match l with
    | "-"%char :: ds => (true, ds)
    | "+"%char :: ds => (false, ds)
    | _ => (false, l)
    end in
  match ds with
  | [] => None
  | _ :: _ =>
      match digits_val 0 ds with
      | None => None
      | Some v =>
          let n := if neg then - v else v in
          if (Int64.min_int <=? n) && (n <=? Int64.max_int) then Some n
          else None
      end
  end.

(** *** float64, on the non-negative values

    [Finite m e] is the number [m * 2^e]; every operation rounds the exact
    result to the nearest [float64], ties to even, as IEEE 754 does. Only
    non-negative numbers arise in [ParseSize]. *)
Inductive float64 :=
| Finite (m e : Z)
| PosInf.

(** [floor (log2 (p/q))] for positive [p] and [q]. *)
Definition ilog2 (p q : Z) : Z :=
  if q <=? p then Z.log2 (p / q) else - Z.log2_up ((q + p - 1) / p).

(** The [float64] nearest to [p/q] ([0 <= p], [0 < q]): 53 bits of
    mantissa, exponent of the last bit at least [-1074], overflow to
    infinity from [2^1024] on. *)
Definition round64 (p q : Z) : float64 :=
  if p <=? 0 then Finite 0 0
  else
    let e := Z.max (ilog2 p q - 52) (-1074) in
    let a := if 0 <=? e then p else p * 2 ^ (- e) in
    let b := if 0 <=? e then q * 2 ^ e else q in
    let m0 := a / b in
    let r := a mod b in
    let m :=
      if 2 * r <? b then m0
      else if b <? 2 * r then m0 + 1
      else if Z.even m0 then m0 else m0 + 1 in
    if (0 <=? e) && (2 ^ 1024 <=? m * 2 ^ e) then PosInf else Finite m e.

(** [float64(n)] for a non-negative integer. *)
Definition float_of_int (n : Z) : float64 := round64 n 1.

(** [x * y], the multiplier [y] not being zero. *)
Definition fmul (x y : float64) : float64 :=
  match x, y with
  | Finite m1 e1, Finite m2 e2 =>
      let e := e1 + e2 in
      if 0 <=? e then round64 (m1 * m2 * 2 ^ e) 1
      else round64 (m1 * m2) (2 ^ (- e))
  | _, _ => PosInf
  end.

(** [int64(f)]: truncation toward zero; out of range the result depends
    on the platform, and is the one of amd64 here ([-2^63]). *)
Definition int64_of_float (f : float64) : Z :=
  match f with
  | Finite m e =>
      let t := if 0 <=? e then m * 2 ^ e else m / 2 ^ (- e) in
      if t <=? Int64.max_int then t else Int64.min_int
  | PosInf => Int64.min_int
  end.

(** The digits of a decimal numeral without sign or exponent: the integer
    they spell with the point removed, and the number of digits after the
    point. At most one point, at least one digit. *)
Fixpoint read_decimal (l : list ascii) (sawdot sawdigits : bool) (d k : Z)
  : option (Z * Z) :=
  match l with
  | [] => if sawdigits then Some (d, k) else None
  | c :: l' =>
      if is_dot c then
        if sawdot then None else read_decimal l' true sawdigits d k
      else if is_digit c then
        read_decimal l' sawdot true (d * 10 + digit_val c)
                     (if sawdot then k + 1 else k)
      else None
  end.

(** [strconv.ParseFloat(s, 64)] on the strings that reach it in
    [ParseSize], made of digits and points: the nearest [float64], or an
    error for a malformed numeral or one that overflows. *)
Definition ParseFloat (s : string) : option float64 :=
  match read_decimal (list_ascii_of_string s) false false 0 0 with
  | None => None
  | Some (d, k) =>
      match round64 d (10 ^ k) with
      | PosInf => None
      | f => Some f
      end
  end.

(** *** Package net *)

(** The fields of a dotted-decimal IPv4 address: four numbers of at most
    255 without leading zero, separated by single points. *)
Fixpoint ipv4_fields (l : list ascii) (val digLen pos : Z)
    (first prevdot : bool) : bool :=
  match l with
  | [] => 3 <=? pos
  | c :: l' =>
      if is_digit c then
        if (digLen =? 1) && (val =? 0) then false
        else
          let val' := val * 10 + digit_val c in
          if 255 <? val' then false
          else ipv4_fields l' val' (digLen + 1) pos false false
      else if is_dot c then
        if first || prevdot || match l' with [] => true | _ => false end
        then false
        else if pos =? 3 then false
        else ipv4_fields l' 0 0 (pos + 1) false true
      else false
  end.

Definition parse_ipv4 (l : list ascii) : bool := ipv4_fields l 0 0 0 true false.

Definition hex_val (c : ascii) : option Z :=
  if is_digit c then Some (digit_val c)
  else if byte_in 97 102 c then Some (Z.of_N (N_of_ascii c) - 87)
  else if byte_in 65 70 c then Some (Z.of_N (N_of_ascii c) - 55)
  else None.

(** One group of an IPv6 address: at most four hexadecimal digits. *)
Fixpoint read_hex (l : list ascii) (off : nat) (acc : Z)
  : option (nat * Z * list ascii) :=
  match l with
  | [] => Some (off, acc, [])
  | c :: l' =>
      match hex_val c with
      | Some d => if (3 <? off)%nat then None
                  else read_hex l' (S off) (acc * 16 + d)
      | None => Some (off, acc, l)
      end
  end.

(** The groups of an IPv6 address: the text left, the bytes filled, the
    place of the [::]. *)
Fixpoint ipv6_groups (fuel : nat) (s : list ascii) (i : Z)
    (ellipsis : option Z) : option (list ascii * Z * option Z) :=
  match fuel with
  | O => Some (s, i, ellipsis)
  | S fuel' =>
      match read_hex s 0 0 with
      | None => None
      | Some (O, _, _) => None
      | Some (S _, _, "."%char :: _) =>
          if (match ellipsis with None => negb (i =? 12) | Some _ => false end)
          then None
          else if 16 <? i + 4 then None
          else if parse_ipv4 s then Some ([], i + 4, ellipsis) else None
      | Some (S _, _, []) => Some ([], i + 2, ellipsis)
      | Some (S _, _, ":"%char :: []) => None
      | Some (S _, _, ":"%char :: ":"%char :: rest) =>
          match ellipsis with
          | Some _ => None
          | None =>
              match rest with
              | [] => Some ([], i + 2, Some (i + 2))
              | _ :: _ => ipv6_groups fuel' rest (i + 2) (Some (i + 2))
              end
          end
      | Some (S _, _, ":"%char :: rest) => ipv6_groups fuel' rest (i + 2) ellipsis
      | Some (S _, _, _ :: _) => None
      end
  end.

Definition parse_ipv6 (l : list ascii) : bool :=
  let '(s, ellipsis) :=
    match l with
    | ":"%char :: ":"%char :: rest => (rest, Some 0)
    | _ => (l, None)
    end in
  match s, ellipsis with
  | [], Some _ => true
  | _, _ =>
      match ipv6_groups 8 s 0 ellipsis with
      | None => false
      | Some (_ :: _, _, _) => false
      | Some ([], i, e) =>
          if i <? 16 then match e with Some _ => true | None => false end
          else match e with Some _ => false | None => true end
      end
  end.

(** Which of [.], [:] and [%] comes first decides the family. *)
Fixpoint ip_family (l : list ascii) : option ascii :=
  match l with
  | [] => None
  | c :: l' =>
      if Ascii.eqb c "." || Ascii.eqb c ":" || Ascii.eqb c "%" then Some c
      else ip_family l'
  end.

(** [net.ParseIP(s) != nil]: [s] is an IPv4 address in dotted decimal or
    an IPv6 address without zone. *)
Definition ParseIP (s : string) : bool :=
  let l := list_ascii_of_string s in
  match ip_family l with
  | Some "."%char => parse_ipv4 l
  | Some ":"%char =>
      if existsb (Ascii.eqb "%") l then false else parse_ipv6 l
  | _ => false
  end.

(** Does [s] parse as an IPv4 address in dotted decimal. *)
Definition is_ipv4 (s : string) : bool := parse_ipv4 (list_ascii_of_string s).

(** [strings.Contains(s, sub)] for a one-byte [sub]. *)
Definition ContainsByte (s : string) (c : ascii) : bool :=
  existsb (Ascii.eqb c) (list_ascii_of_string s).

End GoStd.

(** ** Package config *)

Module Config.
Import GoStd.

Definition DefaultDLURL : string := "https://mensura.cdn-apple.com/api/v1/gm/large".
Definition DefaultULURL : string := "https://mensura.cdn-apple.com/api/v1/gm/slurp".
Definition DefaultLatencyURL : string := "https://mensura.cdn-apple.com/api/v1/gm/small".
Definition DefaultMax : string := "2G".
Definition DefaultTimeout : Z := 10.
Definition DefaultThreads : Z := 4.
Definition DefaultLatencyCount : Z := 20.

Record Config := mkConfig {
  DLURL        : string;
  ULURL        : string;
  LatencyURL   : string;
  Max          : string;
  MaxBytes     : Z;
  Timeout      : Z;
  Threads      : Z;
  LatencyCount : Z
}.

(** The pattern of [sizeRe]: case-insensitive, anchored at both ends;
    optional white space, a first group of one or more digits or points,
    optional white space, a second group of zero or more letters [a-z],
    optional white space. Under the case-insensitive flag the class
    [a-z] also holds the upper-case letters and the two letters that
    fold to [s] and [k], U+017F and U+212A. *)
Definition numeral_byte (c : ascii) : bool := is_digit c || is_dot c.

Definition folded_letter : regex :=
  Alt (Cls is_letter) (Alt (Lit long_s) (Lit kelvin)).

Definition sizeRe : regex :=
  let spaces := Rep (Cls is_re_space) 0 None in
  Cat Bol
 (Cat spaces
 (Cat (Grp 1 (Rep (Cls numeral_byte) 1 None))
 (Cat spaces
 (Cat (Grp 2 (Rep folded_letter 0 None))
 (Cat spaces Eol))))).

(** The three errors of [ParseSize]: no match of [sizeRe], the error of
    [strconv.ParseFloat], an unknown unit. *)
Inductive SizeError :=
| ErrCannotParse
| ErrParseFloat
| ErrUnknownUnit.

Inductive result (A E : Type) :=
| Ok (a : A)
| Err (e : E).
Arguments Ok {A E} _.
Arguments Err {A E} _.

(** The [switch] on the lower-cased unit. *)
Definition unit_mul (u : string) : option Z :=
  if decide (u = "k" \/ u = "kb")%string then Some 1000
  else if decide (u = "m" \/ u = "mb")%string then Some (1000 * 1000)
  else if decide (u = "g" \/ u = "gb")%string then Some (1000 * 1000 * 1000)
  else if decide (u = "t" \/ u = "tb")%string
    then Some (1000 * 1000 * 1000 * 1000)
  else if decide (u = "kib")%string then Some 1024
  else if decide (u = "mib")%string then Some (1024 * 1024)
  else if decide (u = "gib")%string then Some (1024 * 1024 * 1024)
  else if decide (u = "tib")%string then Some (1024 * 1024 * 1024 * 1024)
  else None.

(** The units and their multipliers, as the specification lists them. *)
Definition unit_table : list (string * Z) :=
  [("k", 10 ^ 3); ("kb", 10 ^ 3); ("m", 10 ^ 6); ("mb", 10 ^ 6);
   ("g", 10 ^ 9); ("gb", 10 ^ 9); ("t", 10 ^ 12); ("tb", 10 ^ 12);
   ("kib", 2 ^ 10); ("mib", 2 ^ 20); ("gib", 2 ^ 30); ("tib", 2 ^ 40)]%string.

Definition ParseSize (s : string) : result Z SizeError :=
  match FindStringSubmatch sizeRe s with
  | None => Err ErrCannotParse
  | Some (_, m1, m2) =>
      match ParseFloat m1 with
      | None => Err ErrParseFloat
      | Some num =>
          let unit := m2 in
          if decide (unit = ""%string) then Ok (int64_of_float num)
          else
            match unit_mul (ToLower unit) with
            | Some mul => Ok (int64_of_float (fmul num (float_of_int mul)))
            | None => Err ErrUnknownUnit
            end
      end
  end.

(** [envOr] and [envInt], the environment being [os.Getenv]. *)
Definition envOr (getenv : string -> string) (key fallback : string) : string :=
  let v := getenv key in
  if negb (String.eqb v "") then v else fallback.

Definition envInt (getenv : string -> string) (key : string) (fallback : Z) : Z :=
  let v := getenv key in
  if String.eqb v "" then fallback
  else match Atoi v with
       | Some n => n
       | None => fallback
       end.

(** The errors of [Load], in the order of its checks. *)
Inductive LoadError :=
| InvalidMax (e : SizeError)
| MaxNotPositive
| TimeoutNotPositive
| ThreadsNotPositive
| LatencyCountNotPositive
| TimeoutTooLarge
| ThreadsTooLarge
| LatencyCountTooLarge
| BadURL (name : string).

Definition http_url (u : string) : bool :=
  String.prefix "http://" u || String.prefix "https://" u.

Definition Load (getenv : string -> string) : result Config LoadError :=
  let dl := envOr getenv "DL_URL" DefaultDLURL in
  let ul := envOr getenv "UL_URL" DefaultULURL in
  let lat := envOr getenv "LATENCY_URL" DefaultLatencyURL in
  let max := envOr getenv "MAX" DefaultMax in
  let timeout := envInt getenv "TIMEOUT" DefaultTimeout in
  let threads := envInt getenv "THREADS" DefaultThreads in
  let count := envInt getenv "LATENCY_COUNT" DefaultLatencyCount in
  match ParseSize max with
  | Err e => Err (InvalidMax e)
  | Ok maxBytes =>
      if maxBytes <=? 0 then Err MaxNotPositive
      else if timeout <=? 0 then Err TimeoutNotPositive
      else if threads <=? 0 then Err ThreadsNotPositive
      else if count <=? 0 then Err LatencyCountNotPositive
      else if 120 <? timeout then Err TimeoutTooLarge
      else if 64 <? threads then Err ThreadsTooLarge
      else if 100 <? count then Err LatencyCountTooLarge
      else if negb (http_url dl) then Err (BadURL "DL_URL")
      else if negb (http_url ul) then Err (BadURL "UL_URL")
      else if negb (http_url lat) then Err (BadURL "LATENCY_URL")
      else Ok (mkConfig dl ul lat max maxBytes timeout threads count)
  end.

(** The configuration of the defaults with [MAX=1000000] and four
    threads. *)
Definition one_megabyte : Config :=
  mkConfig DefaultDLURL DefaultULURL DefaultLatencyURL "1000000"
           1000000 DefaultTimeout 4 DefaultLatencyCount.

End Config.

(** ** Package endpoint *)

Module Endpoint.
Import GoStd.

(** [\b(?:\d{1,3}\.){3}\d{1,3}\b] *)
Definition ipv4Re : regex :=
  let octet := Rep (Cls is_digit) 1 (Some 3%nat) in
  Cat WordB
 (Cat (Rep (Cat octet (Cls is_dot)) 3 (Some 3%nat))
 (Cat octet WordB)).

Record IPInfo := mkIPInfo {
  Status     : string;
  Query      : string;
  AS         : string;
  ISP        : string;
  Org        : string;
  City       : string;
  RegionName : string;
  Country    : string
}.

Record dohAnswer := mkAnswer { Data : string }.
Record dohResponse := mkDoh { Answer : list dohAnswer }.

(** What the network hands to [resolveDoH]: [http.NewRequestWithContext]
    may fail, [http.DefaultClient.Do] may fail, otherwise [io.ReadAll]
    yields the bytes of the body (its error is ignored). *)
Inductive DohReply :=
| DohRequestErr
| DohDoErr
| DohBody (body : string).

(** What the network hands to [fetchIPDesc]: a failure to build or to
    perform the request, a body that does not decode, or the decoded
    record. *)
Inductive GeoReply :=
| GeoRequestErr
| GeoDoErr
| GeoDecodeErr
| GeoInfo (info : IPInfo).

(** [seen[ip]] on a [map[string]bool]: [false] for a missing key. *)
Definition seen_get (seen : gmap string bool) (ip : string) : bool :=
  default false (seen !! ip).

(** The loop over [dr.Answer]. *)
Fixpoint collect_answers (seen : gmap string bool) (out : list string)
    (answers : list dohAnswer) : list string :=
  match answers with
  | [] => out
  | a :: answers' =>
      let ip := TrimSpace (Data a) in
      if ParseIP ip && negb (seen_get seen ip)
      then collect_answers (<[ip := true]> seen) (out ++ [ip]) answers'
      else collect_answers seen out answers'
  end.

(** The loop over the matches of [ipv4Re]. *)
Fixpoint collect_matches (seen : gmap string bool) (out : list string)
    (all : list string) : list string :=
  match all with
  | [] => out
  | ip :: all' =>
      if negb (seen_get seen ip)
      then collect_matches (<[ip := true]> seen) (out ++ [ip]) all'
      else collect_matches seen out all'
  end.

Section Resolver.

(** [json.Unmarshal(body, &dr)]: [None] for an error, otherwise the
    decoded [dohResponse]. *)
Variable json_Unmarshal : string -> option dohResponse.

Definition resolveDoH (reply : DohReply) : list string :=
  match reply with
  | DohRequestErr => []
  | DohDoErr => []
  | DohBody body =>
      let structured :=
        match json_Unmarshal body with
        | Some dr =>
            if (0 <? length (Answer dr))%nat
            then collect_answers ∅ [] (Answer dr)
            else []
        | None => []
        end in
      if (0 <? length structured)%nat then structured
      else
        let all := FindAllString ipv4Re body in
        collect_matches ∅ [] all
  end.

End Resolver.

(** [resolveSystem], the sibling of [resolveDoH]: the first address of
    [net.LookupHost] that parses and holds a point. *)
Fixpoint first_ipv4 (addrs : list string) : string :=
  match addrs with
  | [] => ""
  | a :: addrs' =>
      if ParseIP a && ContainsByte a "." then a else first_ipv4 addrs'
  end.

Definition resolveSystem (lookup : option (list string)) : string :=
  match lookup with
  | None => ""
  | Some addrs => first_ipv4 addrs
  end.

Definition fetchIPDesc (reply : GeoReply) : string :=
  match reply with
  | GeoRequestErr => "lookup failed"
  | GeoDoErr => "lookup failed"
  | GeoDecodeErr => "lookup failed"
  | GeoInfo info =>
      if negb (String.eqb (Status info) "success") then "lookup failed"
      else
        let loc := City info in
        let loc :=
          if negb (String.eqb (RegionName info) "") &&
             negb (String.eqb (RegionName info) (City info))
          then loc ++ ", " ++ RegionName info else loc in
        let loc :=
          if negb (String.eqb (Country info) "")
          then loc ++ ", " ++ Country info else loc in
        let loc := if String.eqb loc "" then "unknown location" else loc in
        let asn := AS info in
        let asn := if String.eqb asn "" then Org info else asn in
        let loc :=
          if negb (String.eqb asn "") then loc ++ " (" ++ asn ++ ")"
          else loc in
        loc
  end%string.

(** What [promptChoice] does to the outside: the prompt written to
    standard error, a warning sent to the bus. *)
Inductive Event :=
| Prompt (count : Z)
| Warn (msg : string).

(** [fmt.Sprintf("Invalid selection '%s', fallback to 1.", line)] *)
Definition invalid_selection (line : string) : string :=
  ("Invalid selection '" ++ line ++ "', fallback to 1.")%string.

(** [promptChoice(count, bus)] when [reader.ReadString] yields [line]
    (possibly cut short by the end of the input: the error is ignored). *)
Definition promptChoice (count : Z) (line : string) : Z * list Event :=
  let line := TrimSpace line in
  if String.eqb line "" then (0, [Prompt count])
  else
    match Atoi line with
    | Some n =>
        if (n <? 1) || (count <? n)
        then (0, [Prompt count; Warn (invalid_selection line)])
        else (n - 1, [Prompt count])
    | None => (0, [Prompt count; Warn (invalid_selection line)])
    end.

(** *** Vocabulary of the statements about the resolver *)

(** The [seen] map and the [out] slice of the loops hold the same
    addresses. *)
Definition seen_agrees (seen : gmap string bool) (out : list string) : Prop :=
  forall x, seen_get seen x = true <-> x ∈ out.

(** Each distinct element once, in the order of the first occurrences. *)
Fixpoint first_seen (l : list string) : list string :=
  match l with
  | [] => []
  | x :: l' => x :: filter (fun y => y <> x) (first_seen l')
  end.

(** The addresses a DoH response names, in order of appearance and with
    their repetitions: the trimmed [data] of the answers that
    [net.ParseIP] accepts when the body decodes and has any, the matches
    of [ipv4Re] in the raw body otherwise. *)
Definition structured_candidates
    (json_Unmarshal : string -> option dohResponse) (body : string)
  : list string :=
  match json_Unmarshal body with
  | Some dr =>
      filter (fun ip => ParseIP ip = true)
             (map (fun a => TrimSpace (Data a)) (Answer dr))
  | None => []
  end.

Definition doh_candidates
    (json_Unmarshal : string -> option dohResponse) (reply : DohReply)
  : list string :=
  match reply with
  | DohBody body =>
      match structured_candidates json_Unmarshal body with
      | [] => FindAllString ipv4Re body
      | c :: cs => c :: cs
      end
  | _ => []
  end.

Definition LF : string := String "010" EmptyString.

(** The plain-text body of three lines, the first address repeated. *)
Definition short_body : string :=
  ("1.2.3.4" ++ LF ++ "5.6.7.8" ++ LF ++ "1.2.3.4" ++ LF)%string.

(** A decoder that rejects every body, and one that decodes every body
    to a single answer. *)
Definition json_rejects : string -> option dohResponse := fun _ => None.
Definition json_one_answer (data : string) : string -> option dohResponse :=
  fun _ => Some (mkDoh [mkAnswer data]).

(** The description the prose of the specification gives to a reply with
    empty locality fields and an ASN. *)
Definition unknown_location : string := "unknown location".

End Endpoint.

(** ** Package transfer *)

Module Transfer.

Inductive Direction := Download | Upload.

(** [Duration] is a [time.Duration]: an [int64] count of nanoseconds.
    [Mbps] is a [float64] in the source; it is rendered here by the exact
    rational the floating-point expression approximates (rounding is not
    modelled). *)
Record Result := mkResult {
  Dir        : Direction;
  Threads    : Z;
  TotalBytes : Z;
  Duration   : Z;
  Mbps       : Q;
  FaultCount : Z;
  HadFault   : bool
}.

(** *** The shared byte counter

    Every access to the shared counter is an [atomic.AddInt64]; a worker is
    described by the sequence of deltas it applies, in program order. *)
Definition Trace := list Z.

Definition AddInt64 (shared delta : Z) : Z := Int64.add shared delta.

(** The sum of a list of byte counts, as a mathematical integer. *)
Definition sumZ (l : list Z) : Z := fold_right Z.add 0 l.

(** The counter after the atomic operations of [tr] hit it in order. *)
Definition apply_trace (shared : Z) (tr : Trace) : Z :=
  fold_left AddInt64 tr shared.

(** *** What the network does to one worker *)

(** The error of an [io.Reader.Read]: [io.EOF] or anything else. *)
Inductive ReadErr := EOF | ErrOther.

(** [(n, err)] as returned by one call of [Read]. *)
Definition ReadResult := (Z * option ReadErr)%type.

Record Response (B : Type) := mkResponse {
  StatusCode : Z;
  Body       : B
}.
Arguments mkResponse {B} _ _.
Arguments StatusCode {B} _.
Arguments Body {B} _.

(** [client.Do(req)]: a transport error, or a response. *)
Inductive DoResult (B : Type) :=
| DoErr
| DoOk (resp : Response B).
Arguments DoErr {B}.
Arguments DoOk {B} _.

(** One download attempt as the network decides it: whether
    [http.NewRequestWithContext] fails, what [client.Do] returns, and, for
    a response, what the successive [resp.Body.Read(buf)] calls return.
    Once the listed reads are used up the body is at its end: [Read]
    returns [(0, io.EOF)]. *)
Record DownloadEnv := mkDownloadEnv {
  dl_newreq_err : bool;
  dl_do         : DoResult (list ReadResult)
}.

(** One upload attempt as the network decides it: whether
    [http.NewRequestWithContext] fails, the lengths of the buffers with
    which the transport calls [Read] on the request body before [client.Do]
    returns, and what [client.Do] returns (the response body is drained
    and discarded by [io.Copy(io.Discard, resp.Body)]). *)
Record UploadEnv := mkUploadEnv {
  ul_newreq_err : bool;
  ul_reads      : list Z;
  ul_do         : DoResult unit
}.

(** *** doDownload *)

(** [buf := make([]byte, 256*1024)] *)
Definition bufLen : Z := 256 * 1024.

(** One turn of the [for] loop of [doDownload] on the read result
    [(n, e)]: the new [total], the delta sent to the shared counter, and
    whether the loop goes on ([None]) or breaks with a fault flag. *)
Definition download_step (maxBytes : Z) (total : Z) (rd : ReadResult)
  : Z * Trace * option bool :=
  let '(n, e) := rd in
  let total1 := if 0 <? n then Int64.add total n else total in
  let ev := if 0 <? n then [n] else [] in
  if maxBytes <=? total1 then (total1, ev, Some false)
  else match e with
       | Some EOF => (total1, ev, Some false)
       | Some ErrOther => (total1, ev, Some true)
       | None => (total1, ev, None)
       end.

Fixpoint download_loop (maxBytes : Z) (body : list ReadResult) (total : Z)
  : Z * bool * Trace :=
  match body with
  | [] =>
      let '(total1, ev, _) := download_step maxBytes total (0, Some EOF) in
      (total1, false, ev)
  | rd :: body' =>
      match download_step maxBytes total rd with
      | (total1, ev, Some fault) => (total1, fault, ev)
      | (total1, ev, None) =>
          let '(t, fault, tr) := download_loop maxBytes body' total1 in
          (t, fault, ev ++ tr)
      end
  end.

(** [doDownload]: the returned [(int64, bool)] and the operations applied
    to the shared counter. *)
Definition doDownload (env : DownloadEnv) (maxBytes : Z) : Z * bool * Trace :=
  if dl_newreq_err env then (0, true, [])
  else match dl_do env with
       | DoErr => (0, true, [])
       | DoOk resp =>
           if 400 <=? StatusCode resp then (0, true, [])
           else download_loop maxBytes (Body resp) 0
       end.

(** *** zeroReader and countingReader *)

Record zeroReader := mkZeroReader { remaining : Z }.

(** [(z *zeroReader) Read(p)] with [len(p) = lenp]. *)
Definition zeroReader_Read (z : zeroReader) (lenp : Z)
  : ReadResult * zeroReader :=
  if remaining z <=? 0 then ((0, Some EOF), z)
  else
    let n := lenp in
    let n := if remaining z <? n then remaining z else n in
    ((n, None), mkZeroReader (Int64.sub (remaining z) n)).

Record countingReader := mkCountingReader {
  cr_r      : zeroReader;
  cr_count  : Z;
  cr_shared : bool   (** is the [shared] pointer set (non-nil) *)
}.

(** [(c *countingReader) Read(p)] with [len(p) = lenp]. *)
Definition countingReader_Read (c : countingReader) (lenp : Z)
  : ReadResult * countingReader * Trace :=
  let '((n, err), r') := zeroReader_Read (cr_r c) lenp in
  if 0 <? n then
    ((n, err),
     mkCountingReader r' (Int64.add (cr_count c) n) (cr_shared c),
     if cr_shared c then [n] else [])
  else ((n, err), mkCountingReader r' (cr_count c) (cr_shared c), []).

(** The transport reading the request body: one [Read] per buffer. *)
Fixpoint transport_reads (c : countingReader) (lens : list Z)
  : countingReader * Trace :=
  match lens with
  | [] => (c, [])
  | lenp :: lens' =>
      let '(_, c1, ev) := countingReader_Read c lenp in
      let '(c2, tr) := transport_reads c1 lens' in
      (c2, ev ++ tr)
  end.

(** *** doUpload *)

Definition doUpload (env : UploadEnv) (maxBytes : Z) : Z * bool * Trace :=
  let cr := mkCountingReader (mkZeroReader maxBytes) 0 true in
  if ul_newreq_err env then (0, true, [])
  else
    let '(cr, tr) := transport_reads cr (ul_reads env) in
    match ul_do env with
    | DoErr => (cr_count cr, true, tr)
    | DoOk resp =>
        if 400 <=? StatusCode resp then
          let sent := cr_count cr in
          (0, true, tr ++ [Int64.neg sent])
        else (cr_count cr, false, tr)
    end.

(** *** Run *)

(** Everything outside the program during one [Run]: what the network does
    to worker [i] in either direction, the order in which the scheduler
    lets the workers' atomic operations reach the shared counter, and the
    wall-clock time [time.Since(start)] read after [wg.Wait()]. *)
Record World := mkWorld {
  get_env  : nat -> DownloadEnv;
  put_env  : nat -> UploadEnv;
  schedule : list nat;
  elapsed  : Z
}.

(** The atomic operations of the workers, merged by the schedule: each
    entry names the worker whose next pending operation happens; when the
    schedule is used up, [wg.Wait()] still lets every worker finish. *)
Fixpoint interleave (sched : list nat) (ts : list Trace) : Trace :=
  match sched with
  | [] => concat ts
  | i :: sched' =>
      match ts !! i with
      | Some (d :: t) => d :: interleave sched' (<[i := t]> ts)
      | _ => interleave sched' ts
      end
  end.

(** The body of the goroutine of worker [i]. *)
Definition worker (w : World) (dir : Direction) (maxBytes : Z) (i : nat)
  : Z * bool * Trace :=
  match dir with
  | Download => doDownload (get_env w i) maxBytes
  | Upload => doUpload (put_env w i) maxBytes
  end.

(** [for i := 0; i < threads; i++ { go ... }] *)
Definition workers (w : World) (dir : Direction) (maxBytes : Z) (threads : Z)
  : list (Z * bool * Trace) :=
  map (worker w dir maxBytes) (seq 0 (Z.to_nat threads)).

Definition bytes_of (r : Z * bool * Trace) : Z := fst (fst r).
Definition fault_of (r : Z * bool * Trace) : bool := snd (fst r).
Definition trace_of (r : Z * bool * Trace) : Trace := snd r.

(** [faultCount.Add(1)] for every worker that reports a fault. *)
Definition count_faults (rs : list (Z * bool * Trace)) : Z :=
  fold_left (fun fc r => if fault_of r then Int32.add fc 1 else fc) rs 0.

(** [time.Duration.Seconds()] *)
Definition Seconds (d : Z) : Q := d # 1000000000.

(** The divisor of the final rate: [secs := dur.Seconds(); if secs <= 0
    { secs = 1 }]. *)
Definition effective_secs (dur : Z) : Q :=
  let secs := Seconds dur in
  if Qle_bool secs 0 then 1%Q else secs.

(** [Run]. The workers run concurrently: their operations on [totalBytes]
    reach it in the order of the schedule. The progress goroutine only
    loads the counter and is left out; so are the deadlines of the
    contexts, whose expiry reaches a worker as an error of [client.Do] or
    of [Read]. *)
Definition Run (w : World) (cfg : Config.Config) (dir : Direction)
    (threads : Z)
  : Result :=
  let maxBytes := Config.MaxBytes cfg in
  let rs := workers w dir maxBytes threads in
  let totalBytes := apply_trace 0 (interleave (schedule w) (map trace_of rs)) in
  let dur := elapsed w in
  let total := totalBytes in
  let secs := effective_secs dur in
  let mbps := (inject_Z total * 8 / (secs * 1000000))%Q in
  let fc := count_faults rs in
  mkResult dir threads total dur mbps fc (0 <? fc).

(** *** Vocabulary of the statements about the engine *)

(** The deltas that the body reads of one upload attempt send to the shared
    counter (the operations of the [countingReader]). *)
Definition ul_adds (env : UploadEnv) (maxBytes : Z) : Trace :=
  snd (transport_reads (mkCountingReader (mkZeroReader maxBytes) 0 true)
         (ul_reads env)).

(** The PUT completed and the server answered with a status >= 400. *)
Definition ul_rejected (env : UploadEnv) : bool :=
  match ul_do env with
  | DoOk resp => 400 <=? StatusCode resp
  | DoErr => false
  end.

(** The bytes of one upload attempt that stay in the shared counter. *)
Definition ul_kept (env : UploadEnv) (maxBytes : Z) : Z :=
  if ul_newreq_err env then 0
  else if ul_rejected env then 0
  else sumZ (ul_adds env maxBytes).

(** The GET failed before any byte of a body was read: the request could
    not be built, the transport failed, or the status is >= 400. *)
Definition dl_request_failed (env : DownloadEnv) : bool :=
  dl_newreq_err env ||
  match dl_do env with
  | DoErr => true
  | DoOk resp => 400 <=? StatusCode resp
  end.

(** A read result that respects the contract of [io.Reader] for the buffer
    of [doDownload]: [0 <= n <= len(buf)]. *)
Definition chunk_ok (rd : ReadResult) : Prop := 0 <= fst rd <= bufLen.

(** The bytes a body supplies: those of its reads up to and including the
    first one that carries an error or the end of the stream. *)
Fixpoint supplied (body : list ReadResult) : Z :=
  match body with
  | [] => 0
  | (n, None) :: body' => n + supplied body'
  | (n, Some _) :: _ => n
  end.

(** No read of the body fails with an error other than [io.EOF]. *)
Definition error_free (body : list ReadResult) : Prop :=
  Forall (fun rd => snd rd <> Some ErrOther) body.

(** The byte counts of the first [k] reads of a body. *)
Definition chunks (k : nat) (body : list ReadResult) : list Z :=
  map fst (take k body).

(** A server that answers 200 with the given body reads. *)
Definition ok_download (body : list ReadResult) : DownloadEnv :=
  mkDownloadEnv false (DoOk (mkResponse 200 body)).

(** An attempt against an endpoint that returns status 200 with a body of
    at least [maxBytes] bytes and no error: well-formed reads, none of
    which fails, supplying [maxBytes] bytes or more (and fewer than
    [2^63], so that the count of the whole body fits an [int64]). *)
Definition served (maxBytes : Z) (env : DownloadEnv) : Prop :=
  exists body : list ReadResult,
    env = ok_download body /\
    Forall chunk_ok body /\ error_free body /\
    maxBytes <= supplied body /\
    sumZ (map fst body) <= Int64.max_int.

(** What the counting reader guarantees while the transport drains it:
    the count never passes [K], the bytes the zero reader has left fit
    under it. *)
Definition cr_inv (K : Z) (c : countingReader) : Prop :=
  cr_shared c = true /\ 0 <= cr_count c /\
  Int64.in_range (remaining (cr_r c)) /\
  cr_count c + Z.max 0 (remaining (cr_r c)) <= K /\ K <= Int64.max_int.

(** The reads of the body of a download attempt. *)
Definition body_of (env : DownloadEnv) : list ReadResult :=
  match dl_do env with
  | DoOk resp => Body resp
  | DoErr => []
  end.

(** A world in which one worker downloads 1_000_000 bytes in half a
    second. *)
Definition half_second_world : World :=
  mkWorld (fun _ => ok_download [(1000000, Some EOF)])
          (fun _ => mkUploadEnv false [] DoErr) [] 500000000.

(** A world in which every worker is served the same 2 MiB body in full
    256 KiB reads, within one second. *)
Definition two_mib_body : list ReadResult := repeat (262144, None) 8.

Definition two_mib_world : World :=
  mkWorld (fun _ => ok_download two_mib_body)
          (fun _ => mkUploadEnv false [] DoErr)
          [0; 1; 2; 3; 3; 2; 1; 0]%nat 1000000000.

(** Five full reads of 256 KiB. *)
Definition five_reads : list ReadResult := repeat (262144, None) 5.

(** An upload of at most 1000 bytes that the server rejects with 503
    after the transport has read the body with two buffers of 600. *)
Definition rejected_upload : UploadEnv :=
  mkUploadEnv false [600; 600] (DoOk (mkResponse 503 tt)).

(** The rate as the data model of the specification words it:
    [TotalBytes*8 / max(Duration.Seconds(),1) / 1e6]. *)
Definition Mbps_spec (r : Result) : Q :=
  (inject_Z (TotalBytes r) * 8 / Qmax (Seconds (Duration r)) 1 / 1000000)%Q.

End Transfer.

(* ===================================================================== *)
(** * Part II: lemmas and theorems                                       *)
(* ===================================================================== *)

Import GoStd Config Endpoint Transfer.

(** ** Facts about 64-bit wrap-around *)

Section Int64Facts.

Lemma wrap_in_range (z : Z) : Int64.in_range z -> Int64.wrap z = z.
Proof.
  unfold Int64.in_range, Int64.min_int, Int64.max_int, Int64.wrap.
  intros H. rewrite Z.mod_small; lia.
Qed.

Lemma wrap_range (z : Z) : Int64.in_range (Int64.wrap z).
Proof.
  unfold Int64.in_range, Int64.min_int, Int64.max_int, Int64.wrap.
  pose proof (Z.mod_pos_bound (z + 2 ^ 63) (2 ^ 64) ltac:(lia)). lia.
Qed.

Lemma wrap_add_l (a b : Z) : Int64.wrap (Int64.wrap a + b) = Int64.wrap (a + b).
Proof.
  unfold Int64.wrap. f_equal.
  replace ((a + 2 ^ 63) mod 2 ^ 64 - 2 ^ 63 + b + 2 ^ 63)
    with ((a + 2 ^ 63) mod 2 ^ 64 + b) by lia.
  rewrite Zplus_mod_idemp_l. f_equal. lia.
Qed.

Lemma wrap_add_r (a b : Z) : Int64.wrap (a + Int64.wrap b) = Int64.wrap (a + b).
Proof. rewrite (Z.add_comm a), wrap_add_l. f_equal. lia. Qed.

Lemma wrap_neg_wrap (a : Z) : Int64.wrap (- Int64.wrap a) = Int64.wrap (- a).
Proof.
  unfold Int64.wrap. f_equal.
  replace (- ((a + 2 ^ 63) mod 2 ^ 64 - 2 ^ 63) + 2 ^ 63)
    with (2 ^ 64 - (a + 2 ^ 63) mod 2 ^ 64) by lia.
  rewrite Zminus_mod_idemp_r. 
  replace (2 ^ 64 - (a + 2 ^ 63)) with (- a + 2 ^ 63 + 0 * 2 ^ 64) by lia.
  now rewrite Z_mod_plus_full.
Qed.

End Int64Facts.


Import Transfer.

Section TraceFacts.

Lemma sumZ_app (l1 l2 : list Z) : sumZ (l1 ++ l2) = sumZ l1 + sumZ l2.
Proof. induction l1 as [|x l1 IH]; simpl; lia. Qed.

Lemma sumZ_perm (l1 l2 : list Z) : l1 ≡ₚ l2 -> sumZ l1 = sumZ l2.
Proof. induction 1; simpl; lia. Qed.

Lemma sumZ_pos_nonneg (l : list Z) : Forall (fun d => 0 < d) l -> 0 <= sumZ l.
Proof. induction 1; simpl; lia. Qed.

(** The counter only depends on the sum of the deltas applied to it. *)
Lemma apply_trace_sum (tr : Trace) (sh : Z) :
  Int64.in_range sh -> apply_trace sh tr = Int64.wrap (sh + sumZ tr).
Proof.
  revert sh. induction tr as [|d tr IH]; intros sh Hsh; simpl.
  - rewrite Z.add_0_r. now rewrite wrap_in_range.
  - change (apply_trace (AddInt64 sh d) tr = Int64.wrap (sh + (d + sumZ tr))).
    unfold AddInt64, Int64.add. rewrite IH by apply wrap_range.
    rewrite wrap_add_l. f_equal. lia.
Qed.

Lemma concat_insert_perm (ts : list Trace) (i : nat) (d : Z) (t : Trace) :
  ts !! i = Some (d :: t) -> concat ts ≡ₚ d :: concat (<[i := t]> ts).
Proof.
  revert i. induction ts as [|u ts IH]; intros [|i] H; simpl in *; try done.
  - now inversion H.
  - rewrite (IH _ H). symmetry. apply Permutation_middle.
Qed.

(** Whatever the schedule, the merged trace is a rearrangement of the
    operations of all the workers. *)
Lemma interleave_perm (sched : list nat) (ts : list Trace) :
  interleave sched ts ≡ₚ concat ts.
Proof.
  revert ts. induction sched as [|i sched IH]; intros ts; simpl; [done|].
  destruct (ts !! i) as [[|d t]|] eqn:E; try apply IH.
  rewrite IH. symmetry. now apply concat_insert_perm.
Qed.

Lemma sumZ_concat (ts : list Trace) : sumZ (concat ts) = sumZ (map sumZ ts).
Proof. induction ts as [|t ts IH]; simpl; [done|]. rewrite sumZ_app. lia. Qed.

(** The final counter is the wrapped sum of the net contributions of the
    workers, for every schedule. *)
Lemma final_counter (sched : list nat) (ts : list Trace) :
  apply_trace 0 (interleave sched ts) = Int64.wrap (sumZ (map sumZ ts)).
Proof.
  rewrite apply_trace_sum by (unfold Int64.in_range, Int64.min_int, Int64.max_int; lia).
  rewrite (sumZ_perm _ _ (interleave_perm sched ts)), sumZ_concat. done.
Qed.

End TraceFacts.

Section UploadFacts.

Lemma countingReader_Read_inv (K : Z) (c : countingReader) (lenp : Z) :
  cr_inv K c -> 0 <= lenp ->
  let '(_, c', ev) := countingReader_Read c lenp in
  cr_inv K c' /\ Forall (fun d => 0 < d) ev /\
  cr_count c' = cr_count c + sumZ ev.
Proof.
  unfold cr_inv, Int64.in_range, Int64.min_int, Int64.max_int.
  intros (Hs & Hc & Hr & HK & HKm) Hl.
  unfold countingReader_Read, zeroReader_Read.
  destruct (Z.leb_spec (remaining (cr_r c)) 0) as [Hz|Hz]; simpl.
  - repeat split; simpl; try done; lia.
  - set (n := if remaining (cr_r c) <? lenp then remaining (cr_r c) else lenp).
    assert (Hn : 0 <= n <= remaining (cr_r c) /\ n <= lenp).
    { subst n. destruct (Z.ltb_spec (remaining (cr_r c)) lenp); lia. }
    assert (Hsub : Int64.sub (remaining (cr_r c)) n = remaining (cr_r c) - n).
    { unfold Int64.sub. apply wrap_in_range.
      unfold Int64.in_range, Int64.min_int, Int64.max_int. lia. }
    destruct (Z.ltb_spec 0 n) as [Hp|Hp]; simpl; rewrite Hs, ?Hsub.
    + assert (Hadd : Int64.add (cr_count c) n = cr_count c + n).
      { unfold Int64.add. apply wrap_in_range.
        unfold Int64.in_range, Int64.min_int, Int64.max_int. lia. }
      rewrite Hadd.
      repeat split; simpl; try done; try lia.
      constructor; [lia|constructor].
    + repeat split; simpl; try done; lia.
Qed.

Lemma transport_reads_inv (K : Z) (lens : list Z) (c : countingReader) :
  cr_inv K c -> Forall (fun l => 0 <= l) lens ->
  let '(c', tr) := transport_reads c lens in
  cr_inv K c' /\ Forall (fun d => 0 < d) tr /\
  cr_count c' = cr_count c + sumZ tr.
Proof.
  revert c. induction lens as [|l lens IH]; intros c Hc Hl; simpl.
  - split; [done|]. split; [constructor|lia].
  - inversion Hl as [|? ? Hl0 Hls]; subst.
    pose proof (countingReader_Read_inv K c l Hc Hl0) as H1.
    destruct (countingReader_Read c l) as [[rd c1] ev].
    destruct H1 as (Hc1 & Hev & Hcnt1).
    specialize (IH c1 Hc1 Hls).
    destruct (transport_reads c1 lens) as [c2 tr].
    destruct IH as (Hc2 & Htr & Hcnt2).
    split; [done|]. split.
    + apply Forall_app; done.
    + rewrite sumZ_app. lia.
Qed.

(** The counting reader of [doUpload] counts exactly what it sent to the
    shared counter, never more than [maxBytes]. *)
Lemma ul_adds_counted (env : UploadEnv) (maxBytes : Z) :
  Int64.in_range maxBytes -> Forall (fun l => 0 <= l) (ul_reads env) ->
  let c0 := mkCountingReader (mkZeroReader maxBytes) 0 true in
  Forall (fun d => 0 < d) (ul_adds env maxBytes) /\
  cr_count (fst (transport_reads c0 (ul_reads env))) = sumZ (ul_adds env maxBytes) /\
  0 <= sumZ (ul_adds env maxBytes) <= Z.max 0 maxBytes.
Proof.
  intros Hm Hl c0. unfold ul_adds. fold c0.
  assert (Hc0 : cr_inv (Z.max 0 maxBytes) c0).
  { unfold cr_inv; simpl. unfold Int64.in_range, Int64.min_int, Int64.max_int in *.
    repeat split; try done; lia. }
  pose proof (transport_reads_inv _ (ul_reads env) c0 Hc0 Hl) as H.
  destruct (transport_reads c0 (ul_reads env)) as [c' tr]; simpl in *.
  destruct H as ((_ & Hc & _ & HK & _) & Htr & Hcnt).
  pose proof (sumZ_pos_nonneg tr Htr).
  repeat split; try done; lia.
Qed.

Lemma doUpload_cases (env : UploadEnv) (maxBytes : Z) :
  Int64.in_range maxBytes -> Forall (fun l => 0 <= l) (ul_reads env) ->
  ul_newreq_err env = false ->
  let adds := ul_adds env maxBytes in
  doUpload env maxBytes =
    match ul_do env with
    | DoErr => (sumZ adds, true, adds)
    | DoOk resp =>
        if 400 <=? StatusCode resp then (0, true, adds ++ [- sumZ adds])
        else (sumZ adds, false, adds)
    end.
Proof.
  intros Hm Hl Hn adds.
  destruct (ul_adds_counted env maxBytes Hm Hl) as (_ & Hcnt & Hb).
  unfold doUpload. rewrite Hn. subst adds. unfold ul_adds in *.
  destruct (transport_reads _ (ul_reads env)) as [c' tr]; simpl in *.
  rewrite Hcnt.
  destruct (ul_do env) as [|resp]; [done|].
  destruct (400 <=? StatusCode resp); [|done].
  unfold Int64.neg. rewrite wrap_in_range; [done|].
  unfold Int64.in_range, Int64.min_int, Int64.max_int in *. lia.
Qed.

(** The net contribution of an upload worker to the shared counter. *)
Lemma doUpload_net (env : UploadEnv) (maxBytes : Z) :
  Int64.in_range maxBytes -> Forall (fun l => 0 <= l) (ul_reads env) ->
  sumZ (trace_of (doUpload env maxBytes)) = ul_kept env maxBytes.
Proof.
  intros Hm Hl. unfold ul_kept, ul_rejected.
  destruct (ul_newreq_err env) eqn:Hn.
  - unfold doUpload. rewrite Hn. done.
  - rewrite (doUpload_cases env maxBytes Hm Hl Hn).
    destruct (ul_do env) as [|resp]; [done|].
    destruct (400 <=? StatusCode resp); [|done].
    unfold trace_of; simpl. rewrite sumZ_app. simpl. lia.
Qed.

End UploadFacts.

Section RunFacts.

Lemma Run_TotalBytes (w : World) (cfg : Config.Config) (dir : Direction) (threads : Z) :
  TotalBytes (Run w cfg dir threads) =
  Int64.wrap (sumZ (map (fun i => sumZ (trace_of (worker w dir (Config.MaxBytes cfg) i)))
                      (seq 0 (Z.to_nat threads)))).
Proof.
  unfold Run; simpl. rewrite final_counter. unfold workers.
  rewrite !map_map. done.
Qed.

End RunFacts.

(** C1. An upload attempt whose request could be built, with [maxBytes] an
    [int64] and non-negative buffer lengths. Its body reads send only
    positive deltas [adds] to the shared counter, [sent] in total. If the PUT
    completes with a status >= 400, [doUpload] reports 0 bytes and a fault,
    and its last operation on the counter subtracts exactly [sent]: the
    counter is back where it would be without this worker. If the request
    fails with a transport error, [doUpload] reports [sent] bytes and a
    fault, and no delta takes anything back: the counter keeps [sent]. For
    the whole engine and every schedule, the final counter of an upload
    pass is the sum of what the workers keep, a rejected worker keeping
    nothing. *)
Theorem doUpload_rollback (maxBytes : Z) :
  Int64.in_range maxBytes ->
  (forall env : UploadEnv,
     Forall (fun l => 0 <= l) (ul_reads env) -> ul_newreq_err env = false ->
     let adds := ul_adds env maxBytes in
     let sent := sumZ adds in
     Forall (fun d => 0 < d) adds /\
     (forall resp, ul_do env = DoOk resp -> 400 <= StatusCode resp ->
        doUpload env maxBytes = (0, true, adds ++ [- sent]) /\
        forall sh, Int64.in_range sh -> apply_trace sh (adds ++ [- sent]) = sh) /\
     (ul_do env = DoErr ->
        doUpload env maxBytes = (sent, true, adds) /\
        forall sh, Int64.in_range sh ->
          apply_trace sh adds = Int64.wrap (sh + sent))) /\
  (forall (w : World) (cfg : Config.Config) (threads : Z),
     Config.MaxBytes cfg = maxBytes ->
     (forall i, Forall (fun l => 0 <= l) (ul_reads (put_env w i))) ->
     TotalBytes (Run w cfg Upload threads) =
     Int64.wrap (sumZ (map (fun i => ul_kept (put_env w i) maxBytes)
                         (seq 0 (Z.to_nat threads)))) /\
     forall i, ul_rejected (put_env w i) = true ->
               ul_kept (put_env w i) maxBytes = 0).
Proof.
  intros Hm. split.
  - intros env Hl Hn adds sent.
    pose proof (doUpload_cases env maxBytes Hm Hl Hn) as Hc. fold adds in Hc.
    destruct (ul_adds_counted env maxBytes Hm Hl) as (Hpos & _ & _).
    split; [done|]. split.
    + intros resp Hdo Hst. rewrite Hdo in Hc.
      destruct (Z.leb_spec 400 (StatusCode resp)); [|lia].
      split; [done|]. intros sh Hsh.
      rewrite apply_trace_sum by done. rewrite sumZ_app. simpl.
      fold sent. replace (sh + (sent + (- sent + 0))) with sh by lia.
      now apply wrap_in_range.
    + intros Hdo. rewrite Hdo in Hc. split; [done|].
      intros sh Hsh. now apply apply_trace_sum.
  - intros w cfg threads Hcfg Hl. split.
    + rewrite Run_TotalBytes, Hcfg. f_equal. f_equal.
      apply map_ext. intros i. simpl. now apply doUpload_net.
    + intros i Hr. unfold ul_kept. rewrite Hr. now destruct (ul_newreq_err _).
Qed.

(** C1, at an upload of at most 1000 bytes that the server rejects with 503
    after two reads: 600 and 400 bytes were added, 1000 are taken back. *)
Lemma doUpload_rollback_witness :
  Int64.in_range 1000 /\
  Forall (fun l => 0 <= l) (ul_reads rejected_upload) /\
  ul_newreq_err rejected_upload = false /\
  ul_do rejected_upload = DoOk (mkResponse 503 tt) /\
  400 <= 503 /\
  doUpload rejected_upload 1000 = (0, true, [600; 400] ++ [- 1000]) /\
  apply_trace 5000 ([600; 400] ++ [- 1000]) = 5000.
Proof.
  assert (H0 : Int64.in_range 1000) by (split; vm_compute; discriminate).
  assert (H1 : Forall (fun l => 0 <= l) (ul_reads rejected_upload)).
  { repeat constructor; vm_compute; discriminate. }
  assert (H2 : ul_newreq_err rejected_upload = false) by reflexivity.
  assert (H3 : ul_do rejected_upload = DoOk (mkResponse 503 tt)) by reflexivity.
  assert (H4 : 400 <= 503) by (vm_compute; discriminate).
  assert (H5 : Int64.in_range 5000) by (split; vm_compute; discriminate).
  destruct (proj1 (doUpload_rollback 1000 H0) rejected_upload H1 H2)
    as (_ & Hrej & _).
  destruct (Hrej (mkResponse 503 tt) H3 H4) as (Hres & Hback).
  split; [exact H0|]. split; [exact H1|]. split; [exact H2|].
  split; [exact H3|]. split; [exact H4|]. split; [exact Hres|].
  exact (Hback 5000 H5).
Defined.

Section DownloadFacts.

Variable maxBytes : Z.

Ltac i64 := unfold Int64.in_range, Int64.min_int, Int64.max_int in *; lia.

(** One turn of the loop when the running total cannot overflow. *)
Lemma download_step_eq (total n : Z) (e : option ReadErr) :
  0 <= total -> 0 <= n -> total + n <= Int64.max_int ->
  download_step maxBytes total (n, e) =
    (total + n, if 0 <? n then [n] else [],
     if maxBytes <=? total + n then Some false
     else match e with
          | Some EOF => Some false
          | Some ErrOther => Some true
          | None => None
          end).
Proof.
  intros Ht Hn Hb. unfold download_step.
  destruct (Z.ltb_spec 0 n) as [Hp|Hp].
  - unfold Int64.add. rewrite wrap_in_range by i64.
    destruct (maxBytes <=? total + n); [done|]. now destruct e as [[|]|].
  - replace (total + n) with total by lia.
    destruct (maxBytes <=? total); [done|]. now destruct e as [[|]|].
Qed.

Lemma sumZ_chunks_le (body : list ReadResult) (j : nat) :
  Forall chunk_ok body -> 0 <= sumZ (chunks j body) <= sumZ (map fst body).
Proof.
  unfold chunks. revert j. induction body as [|[n e] body IH]; intros j Hok.
  - destruct j; simpl; lia.
  - inversion Hok as [|? ? [Hn _] Hok']; subst. simpl in Hn.
    destruct j; simpl.
    + specialize (IH 0%nat Hok'). simpl in IH. lia.
    + specialize (IH j Hok'). lia.
Qed.

(** The loop of [doDownload], started below the cap: it returns the sum of
    what it sent to the shared counter, which is the chunks of a prefix of
    the reads; every shorter prefix stays below the cap. *)
Lemma download_loop_prefix (body : list ReadResult) (t0 : Z) :
  Forall chunk_ok body -> 0 <= t0 < maxBytes ->
  t0 + sumZ (map fst body) <= Int64.max_int ->
  let '(t, fault, tr) := download_loop maxBytes body t0 in
  t = t0 + sumZ tr /\
  exists k : nat,
    tr = filter (fun d => 0 < d) (chunks k body) /\
    sumZ tr = sumZ (chunks k body) /\
    forall j : nat, (j < k)%nat -> t0 + sumZ (chunks j body) < maxBytes.
Proof.
  revert t0. induction body as [|[n e] body IH]; intros t0 Hok Ht Hb.
  - simpl. destruct (maxBytes <=? t0); simpl; (split; [lia|]);
      exists 0%nat; (split; [done|]); (split; [done|]); intros; lia.
  - inversion Hok as [|? ? [Hn Hn'] Hok']; subst. simpl in Hn, Hn', Hb.
    pose proof (sumZ_chunks_le body (length body) Hok') as Hs.
    pose proof (sumZ_chunks_le body 0 Hok') as Hs0.
    cbn [download_loop]. rewrite download_step_eq by lia.
    assert (Hev : sumZ (if 0 <? n then [n] else []) = n).
    { destruct (Z.ltb_spec 0 n); simpl; lia. }
    assert (Hfilter : forall k, filter (fun d => 0 < d) (chunks (S k) ((n, e) :: body))
              = (if 0 <? n then [n] else []) ++ filter (fun d => 0 < d) (chunks k body)).
    { intros k. unfold chunks. simpl. rewrite filter_cons.
      destruct (decide (0 < n)); destruct (Z.ltb_spec 0 n); try lia; done. }
    set (ev := if 0 <? n then [n] else []) in *.
    assert (Hstop :
      t0 + n = t0 + sumZ ev /\
      exists k : nat,
        ev = filter (fun d => 0 < d) (chunks k ((n, e) :: body)) /\
        sumZ ev = sumZ (chunks k ((n, e) :: body)) /\
        forall j : nat, (j < k)%nat -> t0 + sumZ (chunks j ((n, e) :: body)) < maxBytes).
    { split; [lia|]. exists 1%nat.
      rewrite Hfilter. unfold chunks; simpl. rewrite app_nil_r.
      split; [done|]. split; [lia|].
      intros j Hj. assert (j = 0%nat) as -> by lia. simpl. lia. }
    destruct (Z.leb_spec maxBytes (t0 + n)) as [Hcap|Hcap]; [apply Hstop|].
    destruct e as [[|]|]; [apply Hstop..|].
    specialize (IH (t0 + n) Hok' ltac:(lia) ltac:(lia)).
    destruct (download_loop maxBytes body (t0 + n)) as [[t fault] tr].
    destruct IH as (Hsum & k & Htr & Hsk & Hlt).
    rewrite sumZ_app, Hev. split; [lia|].
    exists (S k). rewrite Hfilter, Htr. split; [done|]. split.
    + rewrite <- Htr, Hsk. unfold chunks; simpl. lia.
    + intros [|j] Hj; [simpl; lia|].
      specialize (Hlt j ltac:(lia)). unfold chunks in *; simpl. lia.
Qed.

(** The total never passes the cap by a whole buffer. *)
Lemma download_loop_upper (body : list ReadResult) (t0 : Z) :
  Forall chunk_ok body -> 0 <= t0 < maxBytes ->
  t0 + sumZ (map fst body) <= Int64.max_int ->
  fst (fst (download_loop maxBytes body t0)) <= maxBytes + bufLen - 1.
Proof.
  revert t0. induction body as [|[n e] body IH]; intros t0 Hok Ht Hb.
  - simpl. unfold bufLen. destruct (maxBytes <=? t0); simpl; lia.
  - inversion Hok as [|? ? [Hn Hn'] Hok']; subst. simpl in Hn, Hn', Hb.
    pose proof (sumZ_chunks_le body 0 Hok') as Hs0.
    cbn [download_loop]. rewrite download_step_eq by lia.
    destruct (Z.leb_spec maxBytes (t0 + n)) as [Hcap|Hcap]; [simpl; lia|].
    destruct e as [[|]|]; [simpl; unfold bufLen; lia..|].
    specialize (IH (t0 + n) Hok' ltac:(lia) ltac:(lia)).
    destruct (download_loop maxBytes body (t0 + n)) as [[t fault] tr].
    simpl in *. lia.
Qed.

(** Without a read error the loop ends without a fault, at the cap or
    beyond when the body supplies that much, and with the whole body
    otherwise. *)
Lemma download_loop_lower (body : list ReadResult) (t0 : Z) :
  Forall chunk_ok body -> error_free body -> 0 <= t0 < maxBytes ->
  t0 + sumZ (map fst body) <= Int64.max_int ->
  let '(t, fault, _) := download_loop maxBytes body t0 in
  fault = false /\
  (maxBytes <= t0 + supplied body -> maxBytes <= t) /\
  (t0 + supplied body < maxBytes -> t = t0 + supplied body).
Proof.
  revert t0. induction body as [|[n e] body IH]; intros t0 Hok Hef Ht Hb.
  - simpl. destruct (maxBytes <=? t0); simpl; repeat split; lia.
  - inversion Hok as [|? ? [Hn Hn'] Hok']; subst. simpl in Hn, Hn', Hb.
    inversion Hef as [|? ? He Hef']; subst. simpl in He.
    pose proof (sumZ_chunks_le body 0 Hok') as Hs0.
    cbn [download_loop]. rewrite download_step_eq by lia.
    destruct (Z.leb_spec maxBytes (t0 + n)) as [Hcap|Hcap].
    + split; [done|]. split; [lia|]. intros Hlt. exfalso.
      assert (0 <= supplied body).
      { clear -Hok'. induction Hok' as [|[m [x|]] l [Hm _] _ IHl]; simpl in *; lia. }
      destruct e; simpl in Hlt; lia.
    + destruct e as [[|]|]; [simpl; repeat split; lia|done|].
      specialize (IH (t0 + n) Hok' Hef' ltac:(lia) ltac:(lia)).
      destruct (download_loop maxBytes body (t0 + n)) as [[t fault] tr].
      simpl. destruct IH as (Hf & Hge & Hlt). repeat split; [done|lia|lia].
Qed.

(** The loop never counts more than the body supplies. *)
Lemma download_loop_le_supplied (body : list ReadResult) (t0 : Z) :
  Forall chunk_ok body -> 0 <= t0 ->
  t0 + sumZ (map fst body) <= Int64.max_int ->
  fst (fst (download_loop maxBytes body t0)) <= t0 + supplied body.
Proof.
  revert t0. induction body as [|[n e] body IH]; intros t0 Hok Ht Hb.
  - simpl. destruct (maxBytes <=? t0); simpl; lia.
  - inversion Hok as [|? ? [Hn Hn'] Hok']; subst. simpl in Hn, Hn', Hb.
    pose proof (sumZ_chunks_le body 0 Hok') as Hs0.
    assert (Hsup : 0 <= supplied body).
    { clear -Hok'. induction Hok' as [|[m [x|]] l [Hm _] _ IHl]; simpl in *; lia. }
    cbn [download_loop]. rewrite download_step_eq by lia.
    destruct (Z.leb_spec maxBytes (t0 + n)) as [Hcap|Hcap];
      [destruct e; simpl; lia|].
    destruct e as [[|]|]; [simpl; lia..|].
    specialize (IH (t0 + n) Hok' ltac:(lia) ltac:(lia)).
    destruct (download_loop maxBytes body (t0 + n)) as [[t fault] tr].
    simpl in *. lia.
Qed.

(** No delta that a download sends to the shared counter is negative or
    null: nothing is ever taken back. *)
Lemma download_loop_no_rollback (body : list ReadResult) (t0 : Z) :
  Forall (fun d => 0 < d) (trace_of (download_loop maxBytes body t0)).
Proof.
  revert t0. induction body as [|[n e] body IH]; intros t0.
  - simpl. destruct (maxBytes <=? t0); constructor.
  - cbn [download_loop]. unfold download_step.
    assert (Hev : Forall (fun d => 0 < d) (if 0 <? n then [n] else [])).
    { destruct (Z.ltb_spec 0 n); repeat constructor; done. }
    destruct (maxBytes <=? _); [done|].
    destruct e as [[|]|]; [done..|].
    specialize (IH (if 0 <? n then Int64.add t0 n else t0)).
    destruct (download_loop _ _ _) as [[t fault] tr]. unfold trace_of in *; simpl in *.
    apply Forall_app; done.
Qed.

Lemma doDownload_no_rollback (env : DownloadEnv) :
  Forall (fun d => 0 < d) (trace_of (doDownload env maxBytes)).
Proof.
  unfold doDownload. destruct (dl_newreq_err env); [constructor|].
  destruct (dl_do env) as [|resp]; [constructor|].
  destruct (400 <=? StatusCode resp); [constructor|].
  apply download_loop_no_rollback.
Qed.

End DownloadFacts.

Section RateFacts.

Lemma count_faults_none (rs : list (Z * bool * Trace)) :
  Forall (fun r => fault_of r = false) rs -> count_faults rs = 0.
Proof.
  unfold count_faults. generalize 0 as fc.
  induction rs as [|r rs IH]; intros fc H; simpl; [done|].
  inversion H as [|? ? Hr Hrs]; subst. rewrite Hr. now apply IH.
Qed.

Lemma sumZ_map_bounds {A} (f : A -> Z) (a b : Z) (l : list A) :
  Forall (fun x => a <= f x <= b) l ->
  Z.of_nat (length l) * a <= sumZ (map f l) <= Z.of_nat (length l) * b.
Proof.
  induction 1 as [|x l Hx Hl IH]; simpl length; simpl sumZ; [simpl; lia|].
  rewrite Nat2Z.inj_succ. simpl. lia.
Qed.

(** The time divisor of [Run] in terms of the duration in nanoseconds. *)
Lemma effective_secs_cases (d : Z) :
  effective_secs d = if d <=? 0 then 1%Q else Seconds d.
Proof.
  unfold effective_secs, Seconds, Qle_bool. simpl.
  rewrite Z.mul_1_r. done.
Qed.

Lemma Seconds_pos (d : Z) : 0 < d -> (0 < Seconds d)%Q.
Proof. intros H. unfold Seconds, Qlt. simpl. lia. Qed.

Lemma Seconds_ge_1 (d : Z) : (1 <= Seconds d)%Q <-> 1000000000 <= d.
Proof. unfold Seconds, Qle. simpl. lia. Qed.

Lemma effective_secs_pos (d : Z) : (0 < effective_secs d)%Q.
Proof.
  rewrite effective_secs_cases. destruct (Z.leb_spec d 0); [lra|].
  now apply Seconds_pos.
Qed.

Lemma Run_fields (w : World) (cfg : Config.Config) (dir : Direction) (threads : Z) :
  let r := Run w cfg dir threads in
  Duration r = elapsed w /\
  Mbps r = (inject_Z (TotalBytes r) * 8 / (effective_secs (Duration r) * 1000000))%Q /\
  HadFault r = (0 <? FaultCount r).
Proof. done. Qed.

(** When do the rate of [Run] and the formula with [max] agree. *)
Lemma rate_agreement (T : Q) (d : Z) :
  (T * 8 / (effective_secs d * 1000000) == T * 8 / Qmax (Seconds d) 1 / 1000000)%Q
  <-> (T == 0)%Q \/ d <= 0 \/ 1000000000 <= d.
Proof.
  rewrite effective_secs_cases.
  destruct (Z.leb_spec d 0) as [Hd|Hd].
  - assert (Hs : (Seconds d <= 1)%Q) by (unfold Seconds, Qle; simpl; lia).
    rewrite (Q.max_r _ _ Hs). split; [auto|]. intros _. field.
  - pose proof (Seconds_pos d Hd) as Hp.
    destruct (Z.le_gt_cases 1000000000 d) as [Hge|Hlt].
    + assert (Hs : (1 <= Seconds d)%Q) by now apply Seconds_ge_1.
      rewrite (Q.max_l _ _ Hs). split; [auto|]. intros _. field. lra.
    + assert (Hs : (Seconds d < 1)%Q) by (unfold Seconds, Qlt; simpl; lia).
      rewrite (Q.max_r _ _ (Qlt_le_weak _ _ Hs)).
      set (S := Seconds d) in *. split.
      * intros H. left.
        assert (H1 : (T * 8 / (S * 1000000) * (S * 1000000)
                      == T * 8 / 1 / 1000000 * (S * 1000000))%Q) by now rewrite H.
        field_simplify in H1; try lra.
        assert (H2 : (T * (1 - S) == 0)%Q) by lra.
        apply Qmult_integral in H2. destruct H2; [done|lra].
      * intros [H|[H|H]]; try lia. rewrite H. field. lra.
Qed.

End RateFacts.

(** C2, as amended. For every [Result] of [Run], [Mbps] is
    [TotalBytes*8 / (s * 1e6)] where the divisor [s] is [Duration.Seconds()]
    when the measured duration is positive and 1 when it is not; [s] is
    always positive. This is the formula with [max(Duration.Seconds(), 1)]
    exactly when no byte was counted, the duration is not positive, or the
    duration is one second or more. *)
Theorem Run_Mbps_guarded_divisor (w : World) (cfg : Config.Config) (dir : Direction) (threads : Z) :
  let r := Run w cfg dir threads in
  (Mbps r == inject_Z (TotalBytes r) * 8 /
             ((if Duration r <=? 0 then 1 else Seconds (Duration r)) * 1000000))%Q /\
  (0 < (if Duration r <=? 0 then 1 else Seconds (Duration r)))%Q /\
  ((Mbps r == Mbps_spec r)%Q <->
   TotalBytes r = 0 \/ Duration r <= 0 \/ 1000000000 <= Duration r).
Proof.
  intros r. destruct (Run_fields w cfg dir threads) as (_ & Hm & _). fold r in Hm.
  rewrite <- effective_secs_cases. split; [now rewrite Hm|].
  split; [apply effective_secs_pos|].
  rewrite Hm. unfold Mbps_spec. rewrite rate_agreement.
  assert (Hz : (inject_Z (TotalBytes r) == 0)%Q <-> TotalBytes r = 0).
  { unfold Qeq; simpl. lia. }
  rewrite Hz. done.
Qed.

(** C2 as stated fails: one worker that counts 1_000_000 bytes in half a
    second gives 16 Mbps, where the formula with [max] gives 8. *)
Lemma Run_Mbps_max_counterexample :
  let r := Run half_second_world Config.one_megabyte Download 1 in
  TotalBytes r = 1000000 /\ Duration r = 500000000 /\
  (Mbps r == 16)%Q /\ (Mbps_spec r == 8)%Q /\ ~ (Mbps r == Mbps_spec r)%Q.
Proof.
  vm_compute. repeat split; try done.
Qed.

Section ServedDownload.

Lemma supplied_le_sum (body : list ReadResult) :
  Forall chunk_ok body -> 0 <= supplied body <= sumZ (map fst body).
Proof.
  induction 1 as [|[n [e|]] body [Hn _] Hok IH]; simpl in *; lia.
Qed.

(** One worker against a well-behaved endpoint: no fault, and a count
    between the cap and the cap plus one buffer less a byte. *)
Lemma doDownload_served (maxBytes : Z) (env : DownloadEnv) :
  0 < maxBytes -> served maxBytes env ->
  let r := doDownload env maxBytes in
  fault_of r = false /\ sumZ (trace_of r) = bytes_of r /\
  maxBytes <= bytes_of r <= maxBytes + bufLen - 1 /\
  bytes_of r <= supplied (body_of env).
Proof.
  intros Hm (body & -> & Hok & Hef & Hsup & Hfit).
  unfold doDownload, ok_download, body_of; simpl.
  pose proof (download_loop_prefix maxBytes body 0 Hok ltac:(lia) ltac:(lia)) as Hp.
  pose proof (download_loop_upper maxBytes body 0 Hok ltac:(lia) ltac:(lia)) as Hu.
  pose proof (download_loop_lower maxBytes body 0 Hok Hef ltac:(lia) ltac:(lia)) as Hl.
  pose proof (download_loop_le_supplied maxBytes body 0 Hok ltac:(lia) ltac:(lia)) as Hs.
  destruct (download_loop maxBytes body 0) as [[t fault] tr].
  unfold fault_of, trace_of, bytes_of; simpl in *.
  destruct Hp as (Ht & _). destruct Hl as (Hf & Hge & _).
  repeat split; try done; lia.
Qed.

End ServedDownload.

(** C4. When the GET of a download attempt fails before any body is read
    (the request cannot be built, the transport fails, or the status is
    >= 400), [doDownload] reports 0 bytes and a fault and leaves the shared
    counter as it is. No download attempt whatsoever sends a negative delta
    to the counter, so whatever a worker added before it faulted stays: the
    final counter of a download pass is the sum of all the deltas of all the
    workers, for every schedule. *)
Theorem doDownload_fault_keeps_counter (maxBytes : Z) (env : DownloadEnv) :
  dl_request_failed env = true ->
  doDownload env maxBytes = (0, true, []) /\
  (forall sh, apply_trace sh (trace_of (doDownload env maxBytes)) = sh) /\
  (forall env' : DownloadEnv,
     Forall (fun d => 0 < d) (trace_of (doDownload env' maxBytes))) /\
  (forall (w : World) (cfg : Config.Config) (threads : Z),
     Config.MaxBytes cfg = maxBytes ->
     TotalBytes (Run w cfg Download threads) =
     Int64.wrap (sumZ (map (fun i => sumZ (trace_of (doDownload (get_env w i) maxBytes)))
                         (seq 0 (Z.to_nat threads))))).
Proof.
  intros Hf.
  assert (He : doDownload env maxBytes = (0, true, [])).
  { unfold dl_request_failed in Hf. unfold doDownload.
    destruct (dl_newreq_err env); [done|]. simpl in Hf.
    destruct (dl_do env) as [|resp]; [done|]. now rewrite Hf. }
  split; [done|]. split; [now rewrite He|].
  split; [intros env'; apply doDownload_no_rollback|].
  intros w cfg threads <-. apply Run_TotalBytes.
Qed.

(** A fault of the other kind, for comparison: a read of the body that
    fails after 1000 bytes. The worker reports a fault and the bytes it
    counted, and they stay in the counter. *)
Example doDownload_read_error_keeps_progress :
  doDownload (mkDownloadEnv false (DoOk (mkResponse 200 [(1000, Some ErrOther)])))
             1000000
  = (1000, true, [1000]).
Proof. reflexivity. Qed.

(** C4, at a response with status 503. *)
Lemma doDownload_fault_keeps_counter_witness :
  let env := mkDownloadEnv false (DoOk (mkResponse 503 [(1000, None)])) in
  dl_request_failed env = true /\
  doDownload env 1000000 = (0, true, []).
Proof.
  split; [reflexivity|].
  apply (doDownload_fault_keeps_counter 1000000
           (mkDownloadEnv false (DoOk (mkResponse 503 [(1000, None)])))).
  reflexivity.
Defined.

(** C10. A download attempt that gets a response with a status below 400,
    a positive cap, and well-formed reads (each of at most 256 KiB) of a
    body shorter than [2^63] bytes. The bytes it adds to the shared counter
    are the whole chunks of a prefix of the reads, the returned total; no
    shorter prefix reaches the cap, and the total is at most
    [maxBytes + 262143]. When no read fails, there is no fault, the total
    is at least [maxBytes] if the body supplies that much, and the whole
    body otherwise. *)
Theorem doDownload_cap_overshoot
    (maxBytes status : Z) (body : list ReadResult) :
  0 < maxBytes -> status < 400 ->
  Forall chunk_ok body -> sumZ (map fst body) <= Int64.max_int ->
  let '(total, fault, tr) :=
    doDownload (mkDownloadEnv false (DoOk (mkResponse status body))) maxBytes in
  total = sumZ tr /\
  sumZ tr <= maxBytes + 262143 /\
  (exists k : nat,
     tr = filter (fun d => 0 < d) (chunks k body) /\
     sumZ tr = sumZ (chunks k body) /\
     forall j : nat, (j < k)%nat -> sumZ (chunks j body) < maxBytes) /\
  (error_free body ->
     fault = false /\
     (maxBytes <= supplied body -> maxBytes <= sumZ tr) /\
     (supplied body < maxBytes -> sumZ tr = supplied body)).
Proof.
  intros Hm Hst Hok Hfit. unfold doDownload; simpl.
  destruct (Z.leb_spec 400 status); [lia|].
  pose proof (download_loop_prefix maxBytes body 0 Hok ltac:(lia) ltac:(lia)) as Hp.
  pose proof (download_loop_upper maxBytes body 0 Hok ltac:(lia) ltac:(lia)) as Hu.
  pose proof (fun Hef => download_loop_lower maxBytes body 0 Hok Hef ltac:(lia) ltac:(lia)) as Hl.
  destruct (download_loop maxBytes body 0) as [[t fault] tr].
  simpl in Hu. unfold bufLen in Hu.
  destruct Hp as (Ht & k & Htr & Hsk & Hlt).
  split; [lia|]. split; [lia|]. split.
  - exists k. split; [done|]. split; [done|]. intros j Hj. specialize (Hlt j Hj). lia.
  - intros Hef. destruct (Hl Hef) as (Hf & Hge & Hlow).
    split; [done|]. split; lia.
Qed.

(** C10, at a cap of 786_433 bytes and five reads of 256 KiB: the fourth
    read passes the cap by 262_143 bytes. *)
Lemma doDownload_cap_overshoot_witness :
  (0 < 786433 /\ 200 < 400 /\ Forall chunk_ok five_reads /\
   sumZ (map fst five_reads) <= Int64.max_int) /\
  doDownload (mkDownloadEnv false (DoOk (mkResponse 200 five_reads))) 786433
  = (1048576, false, [262144; 262144; 262144; 262144]) /\
  let '(total, _, tr) :=
    doDownload (mkDownloadEnv false (DoOk (mkResponse 200 five_reads))) 786433 in
  total = sumZ tr /\ sumZ tr <= 786433 + 262143.
Proof.
  assert (H1 : 0 < 786433) by (vm_compute; reflexivity).
  assert (H2 : 200 < 400) by (vm_compute; reflexivity).
  assert (H3 : Forall chunk_ok five_reads).
  { repeat constructor; vm_compute; discriminate. }
  assert (H4 : sumZ (map fst five_reads) <= Int64.max_int).
  { vm_compute. discriminate. }
  split; [exact (conj H1 (conj H2 (conj H3 H4)))|].
  split; [reflexivity|].
  pose proof (doDownload_cap_overshoot 786433 200 five_reads H1 H2 H3 H4) as H.
  destruct (doDownload (mkDownloadEnv false (DoOk (mkResponse 200 five_reads))) 786433)
    as [[total fault] tr].
  exact (conj (proj1 H) (proj1 (proj2 H))).
Defined.

Section DownloadPass.

(** [threads] workers against a well-behaved endpoint. *)
Lemma Run_download_served (w : World) (cfg : Config.Config) (threads : Z) :
  0 < Config.MaxBytes cfg ->
  Z.max 0 threads * (Config.MaxBytes cfg + bufLen - 1) <= Int64.max_int ->
  (forall i : nat, (Z.of_nat i < threads) -> served (Config.MaxBytes cfg) (get_env w i)) ->
  let r := Run w cfg Download threads in
  Z.max 0 threads * Config.MaxBytes cfg <= TotalBytes r
    <= Z.max 0 threads * (Config.MaxBytes cfg + bufLen - 1) /\
  TotalBytes r = sumZ (map (fun i => bytes_of (worker w Download (Config.MaxBytes cfg) i))
                         (seq 0 (Z.to_nat threads))) /\
  FaultCount r = 0 /\ HadFault r = false.
Proof.
  intros Hm Hfit Hsrv r.
  assert (Hw : forall i, i ∈ seq 0 (Z.to_nat threads) ->
            let x := worker w Download (Config.MaxBytes cfg) i in
            fault_of x = false /\ sumZ (trace_of x) = bytes_of x /\
            Config.MaxBytes cfg <= bytes_of x <= Config.MaxBytes cfg + bufLen - 1).
  { intros i Hi. apply elem_of_seq in Hi. simpl.
    destruct (doDownload_served (Config.MaxBytes cfg) (get_env w i) Hm
                ltac:(apply Hsrv; lia)) as (H1 & H2 & H3 & _).
    auto. }
  assert (Hfc : FaultCount r = 0).
  { subst r. unfold Run; simpl. apply count_faults_none. unfold workers.
    apply Forall_map, Forall_forall. intros i Hi. apply (Hw i Hi). }
  assert (Hsum : sumZ (map (fun i => sumZ (trace_of (worker w Download (Config.MaxBytes cfg) i)))
                         (seq 0 (Z.to_nat threads)))
               = sumZ (map (fun i => bytes_of (worker w Download (Config.MaxBytes cfg) i))
                         (seq 0 (Z.to_nat threads)))).
  { f_equal. apply map_ext_in. intros i Hi. apply list_elem_of_In in Hi. apply (Hw i Hi). }
  pose proof (sumZ_map_bounds (fun i => bytes_of (worker w Download (Config.MaxBytes cfg) i))
                (Config.MaxBytes cfg) (Config.MaxBytes cfg + bufLen - 1) (seq 0 (Z.to_nat threads))) as Hb.
  rewrite length_seq in Hb.
  replace (Z.of_nat (Z.to_nat threads)) with (Z.max 0 threads) in Hb by lia.
  specialize (Hb ltac:(apply Forall_forall; intros i Hi; apply (Hw i Hi))).
  assert (Ht : TotalBytes r = sumZ (map (fun i => bytes_of (worker w Download (Config.MaxBytes cfg) i))
                         (seq 0 (Z.to_nat threads)))).
  { subst r. rewrite Run_TotalBytes, Hsum. apply wrap_in_range.
    unfold Int64.in_range, Int64.min_int, Int64.max_int in *. unfold bufLen in *. lia. }
  split; [lia|]. split; [done|]. split; [done|].
  change (HadFault r) with (0 <? FaultCount r). now rewrite Hfc.
Qed.

End DownloadPass.

(** C3, as amended. With [threadCount = 4] and [maxBytes = 1_000_000]
    against an endpoint that answers 200 with a body of at least
    1_000_000 bytes and no error, every worker counts between 1_000_000
    and 1_262_143 bytes, [TotalBytes] is the sum of the four counts,
    between 4_000_000 and 5_048_572, and [FaultCount] is 0; [TotalBytes] is
    exactly 4_000_000 when every body supplies exactly 1_000_000 bytes. *)
Theorem Run_download_four_workers (w : World) (cfg : Config.Config) :
  Config.MaxBytes cfg = 1000000 ->
  (forall i : nat, (i < 4)%nat -> served 1000000 (get_env w i)) ->
  let r := Run w cfg Download 4 in
  4000000 <= TotalBytes r <= 4000000 + 4 * 262143 /\
  TotalBytes r = sumZ (map (fun i => bytes_of (doDownload (get_env w i) 1000000)) [0;1;2;3]%nat) /\
  (forall i : nat, (i < 4)%nat ->
     1000000 <= bytes_of (doDownload (get_env w i) 1000000) <= 1000000 + 262143) /\
  FaultCount r = 0 /\ HadFault r = false /\
  ((forall i : nat, (i < 4)%nat -> supplied (body_of (get_env w i)) = 1000000) ->
   TotalBytes r = 4000000).
Proof.
  intros Hcfg Hsrv r.
  destruct (Run_download_served w cfg 4) as (Hb & Ht & Hfc & Hhf).
  - rewrite Hcfg. lia.
  - rewrite Hcfg. vm_compute. discriminate.
  - intros i Hi. rewrite Hcfg. apply Hsrv. lia.
  - fold r in Hb, Ht, Hfc, Hhf. rewrite Hcfg in *. unfold bufLen in Hb.
    assert (Hw : forall i : nat, (i < 4)%nat ->
              1000000 <= bytes_of (doDownload (get_env w i) 1000000) <= 1000000 + 262143 /\
              bytes_of (doDownload (get_env w i) 1000000) <= supplied (body_of (get_env w i))).
    { intros i Hi. specialize (Hsrv i Hi).
      destruct (doDownload_served 1000000 (get_env w i) ltac:(lia) Hsrv)
        as (_ & _ & H & Hs).
      unfold bufLen in H. lia. }
    split; [lia|]. split; [exact Ht|]. split; [intros i Hi; apply (Hw i Hi)|].
    split; [done|]. split; [done|].
    intros Hex.
    assert (He : forall i : nat, (i < 4)%nat ->
              bytes_of (doDownload (get_env w i) 1000000) = 1000000).
    { intros i Hi. specialize (Hw i Hi). specialize (Hex i Hi). lia. }
    change (TotalBytes r = sumZ (map (fun i => bytes_of (doDownload (get_env w i) 1000000))
                                   [0; 1; 2; 3]%nat)) in Ht.
    rewrite Ht. simpl.
    rewrite (He 0%nat), (He 1%nat), (He 2%nat), (He 3%nat) by lia. reflexivity.
Qed.

Lemma two_mib_served (i : nat) : served 1000000 (get_env two_mib_world i).
Proof.
  exists two_mib_body. split; [done|]. split.
  - unfold two_mib_body. apply Forall_forall. intros x Hx.
    apply list_elem_of_In, repeat_spec in Hx. subst. unfold chunk_ok, bufLen; simpl; lia.
  - split; [|split; vm_compute; discriminate].
    unfold error_free, two_mib_body. apply Forall_forall. intros x Hx.
    apply list_elem_of_In, repeat_spec in Hx. now subst.
Qed.

(** C3 as amended, at four workers served a 2 MiB body each. *)
Lemma Run_download_four_workers_witness :
  let r := Run two_mib_world Config.one_megabyte Download 4 in
  4000000 <= TotalBytes r <= 4000000 + 4 * 262143 /\ FaultCount r = 0.
Proof.
  pose proof (Run_download_four_workers two_mib_world Config.one_megabyte
                eq_refl (fun i _ => two_mib_served i)) as H.
  intros r. split; apply H.
Defined.

(** C3 as stated fails: four workers served a 2 MiB body in reads of
    256 KiB count 1_048_576 bytes each, 4_194_304 in total. *)
Lemma Run_download_exact_cap_counterexample :
  let r := Run two_mib_world Config.one_megabyte Download 4 in
  (forall i : nat, served 1000000 (get_env two_mib_world i)) /\
  TotalBytes r = 4194304 /\ FaultCount r = 0 /\
  ~ (TotalBytes r = 4000000 /\ FaultCount r = 0).
Proof.
  split; [apply two_mib_served|]. vm_compute.
  split; [done|]. split; [done|]. intros [H _]. discriminate H.
Qed.

Section Dedup.

Lemma first_seen_elem (l : list string) (x : string) :
  x ∈ first_seen l <-> x ∈ l.
Proof.
  induction l as [|y l IH]; simpl; [done|].
  rewrite !elem_of_cons, list_elem_of_filter, IH.
  destruct (decide (x = y)); tauto.
Qed.

Lemma first_seen_NoDup (l : list string) : NoDup (first_seen l).
Proof.
  induction l as [|y l IH]; simpl; [constructor|].
  constructor.
  - rewrite list_elem_of_filter. tauto.
  - now apply NoDup_filter.
Qed.

Lemma first_seen_filter (P : string -> Prop) `{!forall x, Decision (P x)}
    (l : list string) :
  first_seen (filter P l) = filter P (first_seen l).
Proof.
  induction l as [|y l IH]; simpl; [done|].
  rewrite !filter_cons. destruct (decide (P y)) as [Hy|Hy]; simpl.
  - rewrite IH, !list_filter_filter. f_equal.
    apply list_filter_iff. tauto.
  - rewrite IH, list_filter_filter. apply list_filter_iff.
    intros x. split; [|tauto]. intros Hx. split; [done|]. congruence.
Qed.

Lemma seen_agrees_empty : seen_agrees ∅ [].
Proof.
  intros x. unfold seen_get. rewrite lookup_empty. simpl.
  split; [done|]. intros H. inversion H.
Qed.

Lemma seen_agrees_insert seen out ip :
  seen_agrees seen out -> seen_agrees (<[ip := true]> seen) (out ++ [ip]).
Proof.
  intros H x. unfold seen_get. rewrite elem_of_app, list_elem_of_singleton.
  destruct (decide (ip = x)) as [->|Hne].
  - rewrite lookup_insert_eq. simpl. tauto.
  - rewrite lookup_insert_ne by done. fold (seen_get seen x).
    specialize (H x). split; [tauto|]. intros [?|?]; [tauto|congruence].
Qed.

(** The loop over the matches appends, in order, the first occurrence of
    every address that is not yet in [out]. *)
Lemma collect_matches_spec (all : list string) seen out :
  seen_agrees seen out ->
  collect_matches seen out all
  = out ++ first_seen (filter (fun x => x ∉ out) all).
Proof.
  revert seen out. induction all as [|ip all IH]; intros seen out Hs; simpl.
  - now rewrite app_nil_r.
  - rewrite filter_cons. destruct (seen_get seen ip) eqn:E; simpl.
    + apply Hs in E. destruct (decide (ip ∉ out)); [done|]. now apply IH.
    + assert (Hni : ip ∉ out) by (intros Hin; apply Hs in Hin; congruence).
      destruct (decide (ip ∉ out)); [|done]. simpl.
      rewrite (IH _ _ (seen_agrees_insert _ _ _ Hs)).
      rewrite <- app_assoc. simpl. do 2 f_equal.
      rewrite <- first_seen_filter, list_filter_filter. f_equal.
      apply list_filter_iff. intros x.
      rewrite elem_of_app, list_elem_of_singleton. tauto.
Qed.

Lemma collect_answers_matches (answers : list dohAnswer) seen out :
  collect_answers seen out answers =
  collect_matches seen out
    (filter (fun ip => ParseIP ip = true)
            (map (fun a => TrimSpace (Data a)) answers)).
Proof.
  revert seen out. induction answers as [|a answers IH]; intros seen out; simpl; [done|].
  rewrite filter_cons.
  destruct (ParseIP (TrimSpace (Data a))) eqn:E; simpl.
  - destruct (decide (true = true)); [|done]. simpl.
    destruct (seen_get seen _); simpl; apply IH.
  - destruct (decide (false = true)); [done|]. apply IH.
Qed.

Lemma filter_notin_nil (l : list string) : filter (fun x => x ∉ []) l = l.
Proof.
  induction l as [|x l IH]; [done|]. rewrite filter_cons.
  destruct (decide (x ∉ [])) as [|H]; [now rewrite IH|].
  exfalso. apply H. intros Hx. inversion Hx.
Qed.

Lemma collect_matches_first_seen (all : list string) :
  collect_matches ∅ [] all = first_seen all.
Proof.
  rewrite (collect_matches_spec all ∅ [] seen_agrees_empty). simpl.
  now rewrite filter_notin_nil.
Qed.

Variable json_Unmarshal : string -> option dohResponse.

Lemma resolveDoH_first_seen (reply : DohReply) :
  resolveDoH json_Unmarshal reply
  = first_seen (doh_candidates json_Unmarshal reply).
Proof.
  destruct reply as [| |body]; simpl; [done..|].
  unfold structured_candidates.
  destruct (json_Unmarshal body) as [dr|]; simpl;
    [|apply collect_matches_first_seen].
  assert (Hs : (if (0 <? length (Answer dr))%nat
                then collect_answers ∅ [] (Answer dr) else [])
               = first_seen (filter (fun ip => ParseIP ip = true)
                               (map (fun a => TrimSpace (Data a)) (Answer dr)))).
  { rewrite <- collect_matches_first_seen, <- collect_answers_matches.
    now destruct (Answer dr). }
  rewrite Hs.
  destruct (filter _ (map _ (Answer dr))) as [|c cs]; simpl;
    [apply collect_matches_first_seen|done].
Qed.

End Dedup.

(** C5. For every DoH reply, whichever tier parses it, the list of
    [resolveDoH] has no repetition, holds exactly the addresses the reply
    names, and lists them in the order of their first occurrences; the
    plain-text body of the three lines 1.2.3.4, 5.6.7.8, 1.2.3.4, which
    does not decode as JSON, yields 1.2.3.4 then 5.6.7.8. *)
Theorem resolveDoH_dedup (json_Unmarshal : string -> option dohResponse) :
  (forall reply : DohReply,
     let out := resolveDoH json_Unmarshal reply in
     NoDup out /\
     (forall ip, ip ∈ out <-> ip ∈ doh_candidates json_Unmarshal reply) /\
     out = first_seen (doh_candidates json_Unmarshal reply)) /\
  (json_Unmarshal short_body = None ->
   resolveDoH json_Unmarshal (DohBody short_body) = ["1.2.3.4"; "5.6.7.8"]%string).
Proof.
  split.
  - intros reply out. subst out. rewrite resolveDoH_first_seen.
    split; [apply first_seen_NoDup|]. split; [|done].
    intros ip. apply first_seen_elem.
  - intros Hj. rewrite resolveDoH_first_seen. simpl.
    unfold structured_candidates. rewrite Hj. vm_compute. reflexivity.
Qed.

(** C5, with a decoder that rejects the plain-text body. *)
Lemma resolveDoH_dedup_witness :
  json_rejects short_body = None /\
  resolveDoH json_rejects (DohBody short_body) = ["1.2.3.4"; "5.6.7.8"]%string.
Proof.
  split; [reflexivity|].
  apply (resolveDoH_dedup json_rejects). reflexivity.
Defined.

Section Structured.

Lemma collect_answers_accepted (answers : list dohAnswer) :
  Forall (fun ip => ParseIP ip = true) (collect_answers ∅ [] answers).
Proof.
  rewrite collect_answers_matches, collect_matches_first_seen.
  apply Forall_forall. intros ip Hip.
  apply (proj1 (first_seen_elem _ _)) in Hip.
  apply (proj1 (list_elem_of_filter _ _ _)) in Hip. tauto.
Qed.

End Structured.

(** C6, the code at the failing input. When the body decodes to the single
    answer [2001:db8::1], the structured tier of [resolveDoH] returns that
    address, which is not an IPv4 address; [resolveSystem], given the same
    address, skips it. *)
Theorem resolveDoH_structured_keeps_ipv6
    (json_Unmarshal : string -> option dohResponse) (body : string) :
  json_Unmarshal body = Some (mkDoh [mkAnswer "2001:db8::1"]) ->
  resolveDoH json_Unmarshal (DohBody body) = ["2001:db8::1"%string] /\
  is_ipv4 "2001:db8::1" = false /\
  resolveSystem (Some ["2001:db8::1"%string]) = ""%string.
Proof.
  intros Hj. simpl. rewrite Hj. vm_compute. done.
Qed.

Lemma resolveDoH_structured_keeps_ipv6_witness :
  json_one_answer "2001:db8::1" "{}" = Some (mkDoh [mkAnswer "2001:db8::1"]) /\
  resolveDoH (json_one_answer "2001:db8::1") (DohBody "{}") = ["2001:db8::1"%string].
Proof.
  split; [reflexivity|].
  apply (resolveDoH_structured_keeps_ipv6 (json_one_answer "2001:db8::1") "{}").
  reflexivity.
Defined.

Section RegexFacts.

(** A greedy repetition over a run of bytes that each take one
    iteration, stopped by a rest on which the body fails: the whole run
    is consumed and the continuation decides. *)
Lemma rep_greedy (m : matcher) (ln rest : list ascii) :
  (forall c b aft cs k r, c ∈ ln ->
     k (mkState (c :: b) aft cs) = Some r ->
     m (mkState b (c :: aft) cs) k = Some r) ->
  (forall b cs k, m (mkState b rest cs) k = None) ->
  forall (bef : list ascii) cs (lo n : nat) k r,
    (lo <= length ln <= n)%nat ->
    k (mkState (rev ln ++ bef) rest cs) = Some r ->
    rep m lo n (mkState bef (ln ++ rest) cs) k = Some r.
Proof.
  induction ln as [|c ln IH]; intros H1 H2 bef cs lo n k r Hlen Hk.
  - simpl in *. assert (lo = 0%nat) as -> by lia.
    destruct n as [|n]; simpl; [done|]. now rewrite H2.
  - destruct n as [|n]; simpl in Hlen; [lia|].
    cbn [rep app]. erewrite H1; [done|left|].
    apply IH.
    + intros c' b aft cs' k' r' Hc. apply H1. now right.
    + done.
    + lia.
    + simpl in Hk. now rewrite <- app_assoc in Hk.
Qed.

Lemma cls_step (p : ascii -> bool) (c : ascii) b aft cs k r :
  p c = true -> k (mkState (c :: b) aft cs) = Some r ->
  run (Cls p) (mkState b (c :: aft) cs) k = Some r.
Proof. intros Hp Hk. simpl. now rewrite Hp. Qed.

Lemma cls_stop (p : ascii -> bool) (rest : list ascii) b cs k :
  match rest with [] => True | c :: _ => p c = false end ->
  run (Cls p) (mkState b rest cs) k = None.
Proof. destruct rest as [|c rest]; simpl; [done|]. now intros ->. Qed.

End RegexFacts.

Section SizeRe.

Ltac by_bytes c :=
  destruct c as [[] [] [] [] [] [] [] []]; vm_compute; try tauto; try discriminate.

Lemma numeral_not_space (c : ascii) : numeral_byte c = true -> is_re_space c = false.
Proof. by_bytes c. Qed.

Lemma letter_not_space (c : ascii) : is_letter c = true -> is_re_space c = false.
Proof. by_bytes c. Qed.

Lemma letter_not_numeral (c : ascii) : is_letter c = true -> numeral_byte c = false.
Proof. by_bytes c. Qed.

Lemma digit_not_dot (c : ascii) : is_digit c = true -> is_dot c = false.
Proof. by_bytes c. Qed.

Lemma folded_step (c : ascii) b aft cs k r :
  is_letter c = true -> k (mkState (c :: b) aft cs) = Some r ->
  run folded_letter (mkState b (c :: aft) cs) k = Some r.
Proof. intros Hp Hk. simpl. now rewrite Hp, Hk. Qed.

Lemma folded_stop b cs k : run folded_letter (mkState b [] cs) k = None.
Proof. done. Qed.

(** [sizeRe] on a numeral followed by letters: the two groups. *)
Lemma sizeRe_number_unit (ln lu : list ascii) :
  ln <> [] -> Forall (fun c => numeral_byte c = true) ln ->
  Forall (fun c => is_letter c = true) lu ->
  run sizeRe (mkState [] (ln ++ lu) []) Some
  = Some (mkState (rev lu ++ rev ln) [] [(2%nat, lu); (1%nat, ln)]).
Proof.
  intros Hne Hn Hu.
  assert (Hhead_n : match ln ++ lu with [] => True | c :: _ => is_re_space c = false end).
  { destruct ln as [|c ln]; [done|]. inversion Hn; subst. now apply numeral_not_space. }
  assert (Hhead_u : forall p, (forall c, is_letter c = true -> p c = false) ->
            match lu with [] => True | c :: _ => p c = false end).
  { intros p Hp. destruct lu as [|c lu]; [done|]. inversion Hu; subst. now apply Hp. }
  unfold sizeRe. cbn [run before after caps].
  (* leading white space: none *)
  apply (rep_greedy _ [] (ln ++ lu)); [intros ? ? ? ? ? ? H; inversion H| |simpl; lia|].
  { intros. now apply cls_stop. }
  cbn [rev app before after caps].
  (* the numeral *)
  apply (rep_greedy _ ln lu).
  { intros c b aft cs k r Hc. apply cls_step.
    rewrite Forall_forall in Hn. now apply Hn. }
  { intros. apply cls_stop. apply Hhead_u, letter_not_numeral. }
  { rewrite length_app. destruct ln; [done|]. simpl. lia. }
  cbn [before after caps]. rewrite app_nil_r.
  change (length (@nil ascii)) with 0%nat.
  rewrite Nat.sub_0_r, firstn_all, rev_involutive.
  (* white space between the numeral and the unit: none *)
  apply (rep_greedy _ [] lu); [intros ? ? ? ? ? ? H; inversion H| |simpl; lia|].
  { intros. apply cls_stop. apply Hhead_u, letter_not_space. }
  cbn [rev app before after caps].
  (* the unit *)
  rewrite <- (app_nil_r lu) at 1 2.
  apply (rep_greedy _ lu []).
  { intros c b aft cs k r Hc. apply folded_step.
    rewrite Forall_forall in Hu. now apply Hu. }
  { intros. apply folded_stop. }
  { rewrite app_nil_r. lia. }
  cbn [before after caps].
  replace (length (rev lu ++ rev ln) - length (rev ln))%nat with (length (rev lu))
    by (rewrite length_app; lia).
  rewrite take_app_length, rev_involutive.
  done.
Qed.

Lemma search_here (r : regex) (bef aft : list ascii) (st : mstate) :
  run r (mkState bef aft []) Some = Some st -> search r bef aft = Some (bef, st).
Proof. intros H. destruct aft; simpl; now rewrite H. Qed.

Lemma list_ascii_app (s1 s2 : string) :
  list_ascii_of_string (s1 ++ s2) = list_ascii_of_string s1 ++ list_ascii_of_string s2.
Proof. induction s1 as [|c s1 IH]; simpl; [done|]. now rewrite IH. Qed.

Lemma FindStringSubmatch_number_unit (num u : string) :
  num <> ""%string ->
  Forall (fun c => numeral_byte c = true) (list_ascii_of_string num) ->
  Forall (fun c => is_letter c = true) (list_ascii_of_string u) ->
  exists m0, FindStringSubmatch sizeRe (num ++ u) = Some (m0, num, u).
Proof.
  intros Hne Hn Hu. unfold FindStringSubmatch. rewrite list_ascii_app.
  assert (Hl : list_ascii_of_string num <> []) by (destruct num; done).
  set (ln := list_ascii_of_string num) in *. set (lu := list_ascii_of_string u) in *.
  assert (Hs : search sizeRe [] (ln ++ lu)
               = Some ([], mkState (rev lu ++ rev ln) [] [(2%nat, lu); (1%nat, ln)])).
  { apply search_here. now apply sizeRe_number_unit. }
  rewrite Hs. cbn [caps cap Nat.eqb]. subst ln lu.
  rewrite !string_of_list_ascii_of_string. eauto.
Qed.

End SizeRe.

Section FloatFacts.

(** An integer below [2^53] is a [float64]: rounding [n*q / q] is exact. *)
Lemma round64_exact (n q : Z) :
  0 < q -> 0 <= n < 2 ^ 53 ->
  exists m e, round64 (n * q) q = Finite m e /\ e <= 0 /\ m = n * 2 ^ (- e).
Proof.
  intros Hq Hn. unfold round64.
  destruct (Z.leb_spec (n * q) 0) as [Hz|Hp].
  - exists 0, 0. assert (n = 0) by nia. subst. done.
  - assert (Hn0 : 0 < n) by nia.
    assert (Hlog : ilog2 (n * q) q = Z.log2 n).
    { unfold ilog2. destruct (Z.leb_spec q (n * q)); [|nia].
      now rewrite Z.div_mul by lia. }
    rewrite Hlog.
    assert (Hl : 0 <= Z.log2 n < 53).
    { split; [apply Z.log2_nonneg|]. apply Z.log2_lt_pow2; lia. }
    set (e := Z.max (Z.log2 n - 52) (-1074)).
    assert (He : e = Z.log2 n - 52) by lia.
    clearbody e.
    destruct (Z.leb_spec 0 e) as [He0|He0].
    + assert (e = 0) as -> by lia. change (2 ^ 0) with 1. rewrite ?Z.mul_1_r.
      rewrite Z.div_mul, Z.mod_mul by lia.
      destruct (Z.ltb_spec (2 * 0) q); [|lia].
      assert (Hov : (2 ^ 1024 <=? n) = false).
      { apply Z.leb_gt. assert (2 ^ 53 < 2 ^ 1024) by (apply Z.pow_lt_mono_r; lia). lia. }
      rewrite Hov. exists n, 0. split; [done|]. split; [lia|].
      change (2 ^ (- 0)) with 1. lia.
    + replace (n * q * 2 ^ (- e)) with (n * 2 ^ (- e) * q) by lia.
      rewrite Z.div_mul, Z.mod_mul by lia.
      destruct (Z.ltb_spec (2 * 0) q); [|lia].
      simpl. exists (n * 2 ^ (- e)), e. split; [done|]. split; [lia|done].
Qed.

(** The truncation of an exactly represented integer gives it back. *)
Lemma int64_of_float_exact (n m e : Z) :
  0 <= n < 2 ^ 53 -> e <= 0 -> m = n * 2 ^ (- e) ->
  int64_of_float (Finite m e) = n.
Proof.
  intros Hn He ->. unfold int64_of_float.
  assert (Hmax : n <= Int64.max_int).
  { unfold Int64.max_int.
    assert (2 ^ 53 < 2 ^ 63) by (apply Z.pow_lt_mono_r; lia). lia. }
  destruct (Z.leb_spec 0 e).
  - assert (e = 0) as -> by lia. simpl. rewrite !Z.mul_1_r.
    destruct (Z.leb_spec n Int64.max_int); [done|lia].
  - assert (0 < 2 ^ (- e)) by (apply Z.pow_pos_nonneg; lia).
    rewrite Z.div_mul by lia.
    destruct (Z.leb_spec n Int64.max_int); [done|lia].
Qed.

(** The product of two exactly represented integers is exact when it is
    below [2^53]. *)
Lemma fmul_exact (n1 n2 m1 e1 m2 e2 : Z) :
  0 <= n1 -> 0 <= n2 -> n1 * n2 < 2 ^ 53 ->
  e1 <= 0 -> m1 = n1 * 2 ^ (- e1) -> e2 <= 0 -> m2 = n2 * 2 ^ (- e2) ->
  int64_of_float (fmul (Finite m1 e1) (Finite m2 e2)) = n1 * n2.
Proof.
  intros H1 H2 Hp He1 -> He2 ->. unfold fmul.
  assert (Hq1 : 0 < 2 ^ (- e1)) by (apply Z.pow_pos_nonneg; lia).
  assert (Hq2 : 0 < 2 ^ (- e2)) by (apply Z.pow_pos_nonneg; lia).
  destruct (Z.leb_spec 0 (e1 + e2)).
  - assert (e1 = 0) as -> by lia. assert (e2 = 0) as -> by lia. simpl.
    rewrite !Z.mul_1_r.
    destruct (round64_exact (n1 * n2) 1 ltac:(lia) ltac:(nia)) as (m & e & Hr & He & Hm).
    rewrite Z.mul_1_r in Hr. rewrite Hr.
    apply int64_of_float_exact; [nia|done..].
  - replace (n1 * 2 ^ (- e1) * (n2 * 2 ^ (- e2)))
      with (n1 * n2 * 2 ^ (- (e1 + e2))).
    2:{ replace (- (e1 + e2)) with (- e1 + - e2) by lia.
        rewrite Z.pow_add_r by lia. lia. }
    assert (0 < 2 ^ (- (e1 + e2))) by (apply Z.pow_pos_nonneg; lia).
    destruct (round64_exact (n1 * n2) (2 ^ (- (e1 + e2))) ltac:(lia) ltac:(nia))
      as (m & e & Hr & He & Hm).
    rewrite Hr. apply int64_of_float_exact; [nia|done..].
Qed.

Lemma float_of_int_exact (n : Z) :
  0 <= n < 2 ^ 53 ->
  exists m e, float_of_int n = Finite m e /\ e <= 0 /\ m = n * 2 ^ (- e).
Proof.
  intros Hn. unfold float_of_int.
  destruct (round64_exact n 1 ltac:(lia) Hn) as (m & e & Hr & H).
  rewrite Z.mul_1_r in Hr. eauto.
Qed.

End FloatFacts.

Section Numerals.

Lemma digits_val_nonneg (l : list ascii) (acc n : Z) :
  0 <= acc -> digits_val acc l = Some n -> 0 <= n.
Proof.
  revert acc. induction l as [|c l IH]; intros acc Ha; simpl.
  - intros [= <-]. done.
  - destruct (is_digit c) eqn:Hd; [|done]. apply IH.
    assert (0 <= digit_val c).
    { clear -Hd. destruct c as [[] [] [] [] [] [] [] []]; vm_compute in *; congruence. }
    lia.
Qed.

Lemma digits_numeral (l : list ascii) (acc n : Z) :
  digits_val acc l = Some n -> Forall (fun c => numeral_byte c = true) l.
Proof.
  revert acc. induction l as [|c l IH]; intros acc; simpl; [constructor|].
  destruct (is_digit c) eqn:Hd; [|done]. intros H. constructor; [|eauto].
  unfold numeral_byte. now rewrite Hd.
Qed.

Lemma read_decimal_digits (l : list ascii) (acc n : Z) (sd : bool) :
  digits_val acc l = Some n -> (sd = true \/ l <> []) ->
  read_decimal l false sd acc 0 = Some (n, 0).
Proof.
  revert acc sd. induction l as [|c l IH]; intros acc sd; simpl.
  - intros [= <-] [->|H]; done.
  - destruct (is_digit c) eqn:Hd; [|done]. intros H _.
    rewrite (digit_not_dot c Hd). apply IH; auto.
Qed.

(** A string of digits whose value is below [2^53] parses to itself. *)
Lemma ParseFloat_digits (ds : string) (n : Z) :
  ds <> ""%string -> digits_val 0 (list_ascii_of_string ds) = Some n ->
  n < 2 ^ 53 ->
  exists m e, ParseFloat ds = Some (Finite m e) /\ e <= 0 /\ m = n * 2 ^ (- e).
Proof.
  intros Hne Hd Hn. unfold ParseFloat.
  pose proof (digits_val_nonneg _ _ _ (Z.le_refl 0) Hd) as H0.
  rewrite (read_decimal_digits _ 0 n false Hd) by (right; destruct ds; done).
  change (10 ^ 0) with 1.
  destruct (round64_exact n 1 ltac:(lia) ltac:(lia)) as (m & e & Hr & H).
  rewrite Z.mul_1_r in Hr. rewrite Hr. eauto.
Qed.

End Numerals.

Section ParseSizeFacts.

(** [ParseSize] on a numeral followed by letters, by numeral and unit. *)
Lemma ParseSize_number_unit (num u : string) :
  num <> ""%string ->
  Forall (fun c => numeral_byte c = true) (list_ascii_of_string num) ->
  Forall (fun c => is_letter c = true) (list_ascii_of_string u) ->
  ParseSize (num ++ u) =
    match ParseFloat num with
    | None => Err ErrParseFloat
    | Some f =>
        if decide (u = ""%string) then Ok (int64_of_float f)
        else match unit_mul (ToLower u) with
             | Some mul => Ok (int64_of_float (fmul f (float_of_int mul)))
             | None => Err ErrUnknownUnit
             end
    end.
Proof.
  intros Hne Hn Hu. unfold ParseSize.
  destruct (FindStringSubmatch_number_unit num u Hne Hn Hu) as (m0 & ->). done.
Qed.

(** The [switch] of [ParseSize] is the table of the units. *)
Lemma unit_mul_table (u : string) (mul : Z) :
  unit_mul u = Some mul <-> (u, mul) ∈ unit_table.
Proof.
  split.
  - unfold unit_mul, unit_table.
    repeat case_decide; intros [= <-];
      repeat match goal with
             | H : _ \/ _ |- _ => destruct H
             end; subst; rewrite !elem_of_cons; vm_compute; tauto.
  - unfold unit_table. rewrite !elem_of_cons, elem_of_nil.
    intros H.
    repeat match goal with
           | H : _ \/ _ |- _ => destruct H as [H|H]
           end; try done; injection H as -> ->; reflexivity.
Qed.

Lemma unit_mul_range (u : string) (mul : Z) :
  unit_mul u = Some mul -> 0 < mul < 2 ^ 53.
Proof.
  unfold unit_mul. repeat case_decide; intros [= <-]; split; try lia;
    vm_compute; reflexivity.
Qed.

End ParseSizeFacts.

(** What [Load] has checked of a configuration it returns. *)
Lemma Load_valid (getenv : string -> string) (c : Config.Config) :
  Load getenv = Ok c ->
  0 < Config.MaxBytes c /\
  0 < Config.Timeout c <= 120 /\
  0 < Config.Threads c <= 64 /\
  0 < Config.LatencyCount c <= 100 /\
  ParseSize (Config.Max c) = Ok (Config.MaxBytes c).
Proof.
  unfold Load. destruct (ParseSize _) as [maxBytes|e] eqn:Hp; [|discriminate].
  repeat match goal with
         | |- context [if ?b then _ else _] =>
             let E := fresh "E" in destruct b eqn:E; [discriminate|]
         end.
  intros [= <-]. simpl. rewrite Hp.
  repeat match goal with
         | H : (_ <=? _) = false |- _ => apply Z.leb_gt in H
         | H : (_ <? _) = false |- _ => apply Z.ltb_ge in H
         end.
  repeat split; try done; lia.
Qed.

(** C7. [ParseSize] is a function of its argument, and it multiplies: a
    string of decimal digits of value [n] followed by a unit of the table
    in any letter case yields [n] times the multiplier of the unit, and a
    bare one yields [n], as long as the result is below [2^53] (where
    [float64] arithmetic is exact); for every numeral, with or without a
    fraction, the result is the truncated [float64] product of the number
    and the multiplier. The units are the twelve of the table, matched
    after lower-casing. ["2G"], ["2GiB"] and ["512"] yield 2_000_000_000,
    2_147_483_648 and 512. *)
Theorem ParseSize_multiplicative :
  (forall (ds u : string) (n mul : Z),
     ds <> ""%string ->
     digits_val 0 (list_ascii_of_string ds) = Some n ->
     Forall (fun c => is_letter c = true) (list_ascii_of_string u) ->
     unit_mul (ToLower u) = Some mul ->
     n * mul < 2 ^ 53 ->
     ParseSize (ds ++ u) = Ok (n * mul)) /\
  (forall (ds : string) (n : Z),
     ds <> ""%string ->
     digits_val 0 (list_ascii_of_string ds) = Some n ->
     n < 2 ^ 53 ->
     ParseSize ds = Ok n) /\
  (forall (num u : string) (f : float64) (mul : Z),
     num <> ""%string ->
     Forall (fun c => is_digit c || is_dot c = true) (list_ascii_of_string num) ->
     Forall (fun c => is_letter c = true) (list_ascii_of_string u) ->
     ParseFloat num = Some f ->
     unit_mul (ToLower u) = Some mul ->
     ParseSize (num ++ u) = Ok (int64_of_float (fmul f (float_of_int mul)))) /\
  (forall (u : string) (mul : Z),
     unit_mul u = Some mul <-> (u, mul) ∈ unit_table) /\
  ParseSize "2G" = Ok 2000000000 /\
  ParseSize "2GiB" = Ok 2147483648 /\
  ParseSize "512" = Ok 512.
Proof.
  split; [|split; [|split; [|split; [apply unit_mul_table|]]]].
  - intros ds u n mul Hne Hd Hu Hm Hb.
    pose proof (digits_val_nonneg _ _ _ (Z.le_refl 0) Hd) as Hn0.
    pose proof (unit_mul_range _ _ Hm) as Hmr.
    rewrite (ParseSize_number_unit ds u Hne (digits_numeral _ _ _ Hd) Hu).
    destruct (ParseFloat_digits ds n Hne Hd ltac:(nia)) as (m1 & e1 & -> & He1 & Hm1).
    rewrite Hm.
    destruct (decide (u = ""%string)) as [->|_]; [vm_compute in Hm; discriminate|].
    destruct (float_of_int_exact mul ltac:(lia)) as (m2 & e2 & -> & He2 & Hm2).
    f_equal. apply fmul_exact; try done; lia.
  - intros ds n Hne Hd Hb.
    pose proof (digits_val_nonneg _ _ _ (Z.le_refl 0) Hd) as Hn0.
    pose proof (ParseSize_number_unit ds "" Hne (digits_numeral _ _ _ Hd) (List.Forall_nil _)) as H.
    assert (Hds : (ds ++ "")%string = ds).
    { clear. induction ds as [|c ds IH]; [done|].
      change (String c (String.append ds "") = String c ds). now rewrite IH. }
    rewrite Hds in H. rewrite H.
    destruct (ParseFloat_digits ds n Hne Hd Hb) as (m1 & e1 & -> & He1 & Hm1).
    simpl. f_equal. now apply int64_of_float_exact.
  - intros num u f mul Hne Hn Hu Hf Hm.
    rewrite (ParseSize_number_unit num u Hne Hn Hu), Hf, Hm.
    destruct (decide (u = ""%string)) as [->|_]; [vm_compute in Hm; discriminate|done].
  - repeat split; vm_compute; reflexivity.
Qed.

(** C7, at ["2gB"]. *)
Lemma ParseSize_multiplicative_witness :
  ("2" <> "" /\ digits_val 0 (list_ascii_of_string "2") = Some 2 /\
   Forall (fun c => is_letter c = true) (list_ascii_of_string "gB") /\
   unit_mul (ToLower "gB") = Some 1000000000 /\
   2 * 1000000000 < 2 ^ 53)%string /\
  ParseSize "2gB" = Ok (2 * 1000000000).
Proof.
  assert (H1 : "2"%string <> ""%string) by discriminate.
  assert (H2 : digits_val 0 (list_ascii_of_string "2") = Some 2) by reflexivity.
  assert (H3 : Forall (fun c => is_letter c = true) (list_ascii_of_string "gB")).
  { repeat constructor. }
  assert (H4 : unit_mul (ToLower "gB") = Some 1000000000) by reflexivity.
  assert (H5 : 2 * 1000000000 < 2 ^ 53) by reflexivity.
  split; [done|].
  exact (proj1 ParseSize_multiplicative "2"%string "gB"%string 2 1000000000 H1 H2 H3 H4 H5).
Defined.

Section DescFacts.

Lemma append_nil_r (s : string) : String.append s "" = s.
Proof.
  induction s as [|c s IH]; [done|].
  change (String c (String.append s "") = String c s). now rewrite IH.
Qed.

Lemma append_assoc (s1 s2 s3 : string) :
  String.append (String.append s1 s2) s3 = String.append s1 (String.append s2 s3).
Proof.
  induction s1 as [|c s1 IH]; [done|].
  change (String c (String.append (String.append s1 s2) s3)
          = String c (String.append s1 (String.append s2 s3))).
  now rewrite IH.
Qed.

Lemma append_eq_nil (s1 s2 : string) :
  String.append s1 s2 = ""%string <-> s1 = ""%string /\ s2 = ""%string.
Proof.
  destruct s1 as [|c s1]; [|split; [discriminate|intros [? _]; discriminate]].
  change (String.append "" s2) with s2. tauto.
Qed.

Lemma eqb_decide (s1 s2 : string) :
  String.eqb s1 s2 = if decide (s1 = s2) then true else false.
Proof. destruct (String.eqb_spec s1 s2); case_decide; done. Qed.

End DescFacts.

(** C8, as amended. For a decoded reply with status [success], [Desc] is
    the place followed by the ASN part. The place is [City], then
    [", " + RegionName] when [RegionName] is non-empty and differs from
    [City], then [", " + Country] when [Country] is non-empty, and is
    replaced by ["unknown location"] exactly when the three fields are
    empty. The ASN part is [" (" + ASN + ")"] where ASN is [AS], or [Org]
    when [AS] is empty, and is absent when both are empty. [Desc] is
    ["lookup failed"] for a request error, a decode error or another
    status. The reply Tokyo, Tokyo, Japan, AS1234 Example yields
    ["Tokyo, Japan (AS1234 Example)"]. *)
Theorem fetchIPDesc_desc :
  (forall info : IPInfo,
     Status info = "success"%string ->
     let region := if decide (RegionName info <> "" /\ RegionName info <> City info)%string
                   then (", " ++ RegionName info)%string else ""%string in
     let country := if decide (Country info <> ""%string)
                    then (", " ++ Country info)%string else ""%string in
     let place := (City info ++ region ++ country)%string in
     let asn := if decide (AS info = ""%string) then Org info else AS info in
     fetchIPDesc (GeoInfo info)
     = ((if decide (place = ""%string) then "unknown location" else place) ++
        (if decide (asn = ""%string) then "" else " (" ++ asn ++ ")"))%string /\
     (place = ""%string <->
      City info = ""%string /\ RegionName info = ""%string /\ Country info = ""%string)) /\
  (forall info : IPInfo,
     Status info <> "success"%string ->
     fetchIPDesc (GeoInfo info) = "lookup failed"%string) /\
  fetchIPDesc GeoRequestErr = "lookup failed"%string /\
  fetchIPDesc GeoDoErr = "lookup failed"%string /\
  fetchIPDesc GeoDecodeErr = "lookup failed"%string /\
  fetchIPDesc (GeoInfo (mkIPInfo "success" "1.2.3.4" "AS1234 Example" "" ""
                          "Tokyo" "Tokyo" "Japan"))
  = "Tokyo, Japan (AS1234 Example)"%string.
Proof.
  split; [|split; [|done]].
  - intros info Hst region country place asn. split.
    + unfold fetchIPDesc. rewrite Hst. cbn [String.eqb Ascii.eqb Bool.eqb negb].
      rewrite !eqb_decide.
      subst place region country asn.
      repeat case_decide; cbn [negb andb] in *;
        rewrite ?append_nil_r, ?append_assoc in *; try done; try tauto;
        repeat case_decide; try done; try tauto.
    + subst place region country.
      rewrite !append_eq_nil.
      repeat case_decide; split; intros Hx; try tauto;
        repeat match goal with
               | H' : _ /\ _ |- _ => destruct H'
               end; try done; try tauto.
      destruct (decide (RegionName info = ""%string)); [tauto|].
      exfalso. match goal with Hn : ~ (_ /\ _) |- _ => apply Hn end.
      split; congruence.
  - intros info Hst. unfold fetchIPDesc. rewrite eqb_decide.
    case_decide; done.
Qed.

(** C8 as amended, at the reply Tokyo, Tokyo, Japan, AS1234 Example. *)
Lemma fetchIPDesc_desc_witness :
  let info := mkIPInfo "success" "1.2.3.4" "AS1234 Example" "" ""
                "Tokyo" "Tokyo" "Japan" in
  Status info = "success"%string /\
  fetchIPDesc (GeoInfo info) = "Tokyo, Japan (AS1234 Example)"%string.
Proof.
  intros info. split; [reflexivity|].
  exact (proj1 (proj1 fetchIPDesc_desc info eq_refl)).
Defined.

(** C8 as stated fails: with the three locality fields empty and an ASN,
    [Desc] is ["unknown location (AS1234 Example)"], not
    ["unknown location"]. *)
Lemma fetchIPDesc_unknown_location_counterexample :
  let info := mkIPInfo "success" "" "AS1234 Example" "" "" "" "" "" in
  City info = ""%string /\ RegionName info = ""%string /\
  Country info = ""%string /\ AS info <> ""%string /\
  fetchIPDesc (GeoInfo info) = "unknown location (AS1234 Example)"%string /\
  fetchIPDesc (GeoInfo info) <> "unknown location"%string.
Proof. vm_compute. repeat split; try done. Qed.

(** C9. [promptChoice] over [count] candidates, on the line read and
    trimmed: a blank line selects index 0 without a warning; a line that
    [Atoi] reads as [n] with [1 <= n <= count] selects [n - 1] without a
    warning; any other line selects index 0 after one warning, at once,
    without asking again. The index is always that of a candidate. *)
Theorem promptChoice_selection (count : Z) (line : string) :
  let l := TrimSpace line in
  (l = ""%string -> promptChoice count line = (0, [Prompt count])) /\
  (forall n : Z, Atoi l = Some n -> 1 <= n <= count ->
     promptChoice count line = (n - 1, [Prompt count])) /\
  (l <> ""%string ->
   (Atoi l = None \/ exists n, Atoi l = Some n /\ (n < 1 \/ count < n)) ->
   promptChoice count line = (0, [Prompt count; Warn (invalid_selection l)])) /\
  (1 <= count -> 0 <= fst (promptChoice count line) < count).
Proof.
  intros l. unfold promptChoice. fold l.
  destruct (String.eqb_spec l "") as [He|Hne].
  - repeat split; try done; try (simpl; lia).
    intros n Hn. rewrite He in Hn. discriminate Hn.
  - split; [done|]. split; [|split].
    + intros n -> Hr.
      destruct (Z.ltb_spec n 1); [lia|]. destruct (Z.ltb_spec count n); [lia|]. done.
    + intros _ [->|(n & -> & Hr)]; [done|].
      destruct (Z.ltb_spec n 1); [done|]. destruct (Z.ltb_spec count n); [done|]. lia.
    + intros Hc. destruct (Atoi l) as [n|]; [|simpl; lia].
      destruct (Z.ltb_spec n 1); [simpl; lia|].
      destruct (Z.ltb_spec count n); simpl; lia.
Qed.

(** C9, at the line [" 7 "] with three candidates. *)
Lemma promptChoice_selection_witness :
  (TrimSpace " 7 " <> "" /\
   (exists n, Atoi (TrimSpace " 7 ") = Some n /\ (n < 1 \/ 3 < n)))%string /\
  promptChoice 3 " 7 "
  = (0, [Prompt 3; Warn "Invalid selection '7', fallback to 1."%string]).
Proof.
  assert (H1 : TrimSpace " 7 " <> ""%string) by (vm_compute; discriminate).
  assert (H2 : exists n, Atoi (TrimSpace " 7 ") = Some n /\ (n < 1 \/ 3 < n)).
  { exists 7. split; [reflexivity|]. right. reflexivity. }
  split; [done|].
  exact (proj1 (proj2 (proj2 (promptChoice_selection 3 " 7 "))) H1 (or_intror H2)).
Defined.

